(** * Verification development for xcbuild's build-execution core:
    the [Invocation] data model (pbxbuild/Tool/Invocation.h), the process
    context caches (process/DefaultContext.cpp), the POSIX
    [DefaultFilesystem] (libutil/DefaultFilesystem.cpp), the SimpleXML plist
    format, and the dependency-info reader and staleness detector. *)

From Stdlib Require Import String Ascii List ZArith Lia Bool.
Import ListNotations.
Open Scope string_scope.
Set Warnings "-register-all".

(* ------------------------------------------------------------------ *)
(** ** Invocation::Executable *)

Module Executable.

(** Two optional fields with a private constructor, as in the header. *)
Record Executable := mkExecutable {
  external : option string;
  builtin  : option string;
}.

Definition External (path : string) : Executable :=
  mkExecutable (Some path) None.

Definition Builtin (name : string) : Executable :=
  mkExecutable None (Some name).

Definition builtinPrefix : string := "builtin-".

(** Modelled from the spec: the body of [Executable::Determine] lives in
    Invocation.cpp, which is not part of the sources; the header only
    documents "builtin tool (starts with \"builtin-\") or an external tool
    path". Spec 4.1: empty is absent, a [builtin-] prefix is [Builtin(raw)]
    keeping the prefix, everything else is [External(raw)]. *)
Definition Determine (executable : string) : option Executable :=
  if String.eqb executable "" then None
  else if String.prefix builtinPrefix executable
       then Some (Builtin executable)
       else Some (External executable).

End Executable.

(* ------------------------------------------------------------------ *)
(** ** plist::Format::SimpleXML (src/unnamed/part_000) *)

Module SimpleXML.

(** A plist object, as far as the format's entry points need it. *)
Inductive Object :=
| OString  (s : string)
| OInteger (z : Z)
| OBoolean (b : bool)
| OArray   (xs : list Object)
| ODict    (kvs : list (string * Object)).

Inductive Encoding := UTF8 | UTF16BE | UTF16LE | UTF32BE | UTF32LE.

Record SimpleXML := mkSimpleXML { encoding : Encoding }.

Definition Create (e : Encoding) : SimpleXML := mkSimpleXML e.

(** [Format<SimpleXML>::Identify]: "Not a standard format; don't
    auto-detect." -- a null [unique_ptr] for every input. *)
Definition Identify (contents : list Z) : option SimpleXML := None.

(** [Format<SimpleXML>::Serialize]: [make_pair(nullptr, "not yet implemented")]. *)
Definition Serialize (object : Object) (format : SimpleXML)
  : option (list Z) * string :=
  (None, "not yet implemented").

End SimpleXML.

(* ------------------------------------------------------------------ *)
(** ** Invocation (pbxbuild/Tool/Invocation.h) *)

Module Invocation.

(** Modelled from the spec: [dependency/DependencyInfoFormat.h] is not
    part of the sources; spec 4.3 and 6 name two wire encodings, a binary
    length-prefixed one and a Make-rule text one. *)
Inductive DependencyInfoFormat := Binary | Makefile.

(** [Invocation::DependencyInfo]: private fields, const accessors only. *)
Record DependencyInfo := mkDependencyInfo {
  di_format : DependencyInfoFormat;
  di_path   : string;
}.

(** [AuxiliaryFile::Chunk]: a type tag with an optional data or file. *)
Inductive ChunkType := ChunkData | ChunkFile.

Record Chunk := mkChunk {
  chunk_type : ChunkType;
  chunk_data : option (list Z);
  chunk_file : option string;
}.

Definition Chunk_Data (data : list Z) : Chunk := mkChunk ChunkData (Some data) None.
Definition Chunk_File (file : string) : Chunk := mkChunk ChunkFile None (Some file).

Record AuxiliaryFile := mkAuxiliaryFile {
  aux_path       : string;
  aux_chunks     : list Chunk;
  aux_executable : bool;
}.

(** The fourteen private fields of [Invocation], in header order. *)
Record Invocation := mkInvocation {
  executable              : option Executable.Executable;
  arguments               : list string;
  environment             : list (string * string);
  workingDirectory        : string;
  inputs                  : list string;
  outputs                 : list string;
  phonyInputs             : list string;
  inputDependencies       : list string;
  orderDependencies       : list string;
  dependencyInfo          : list DependencyInfo;
  auxiliaryFiles          : list AuxiliaryFile;
  logMessage              : string;
  showEnvironmentInLog    : bool;
  createsProductStructure : bool;
}.

(** [Invocation()]: every container empty, booleans false. *)
Definition default : Invocation :=
  mkInvocation None [] [] "" [] [] [] [] [] [] [] "" false false.

(** The public members of [Invocation] after construction.  A const
    accessor returns a const reference and is a read; a non-const
    accessor ([T &executable()], [T &arguments()], ...) returns a mutable
    reference, and any use of it that changes the referenced field is an
    assignment of a new value to that field. *)
Inductive Member :=
| Get (name : string)
| SetExecutable (v : option Executable.Executable)
| SetArguments (v : list string)
| SetEnvironment (v : list (string * string))
| SetWorkingDirectory (v : string)
| SetInputs (v : list string)
| SetOutputs (v : list string)
| SetPhonyInputs (v : list string)
| SetInputDependencies (v : list string)
| SetOrderDependencies (v : list string)
| SetDependencyInfo (v : list DependencyInfo)
| SetAuxiliaryFiles (v : list AuxiliaryFile)
| SetLogMessage (v : string)
| SetShowEnvironmentInLog (v : bool)
| SetCreatesProductStructure (v : bool).

(** Effect of a member use on the object. *)
Definition apply (m : Member) (i : Invocation) : Invocation :=
  match m with
  | Get _ => i
  | SetExecutable v => {| executable := v; arguments := arguments i;
      environment := environment i; workingDirectory := workingDirectory i;
      inputs := inputs i; outputs := outputs i; phonyInputs := phonyInputs i;
      inputDependencies := inputDependencies i; orderDependencies := orderDependencies i;
      dependencyInfo := dependencyInfo i; auxiliaryFiles := auxiliaryFiles i;
      logMessage := logMessage i; showEnvironmentInLog := showEnvironmentInLog i;
      createsProductStructure := createsProductStructure i |}
  | SetArguments v => {| executable := executable i; arguments := v;
      environment := environment i; workingDirectory := workingDirectory i;
      inputs := inputs i; outputs := outputs i; phonyInputs := phonyInputs i;
      inputDependencies := inputDependencies i; orderDependencies := orderDependencies i;
      dependencyInfo := dependencyInfo i; auxiliaryFiles := auxiliaryFiles i;
      logMessage := logMessage i; showEnvironmentInLog := showEnvironmentInLog i;
      createsProductStructure := createsProductStructure i |}
  | SetEnvironment v => {| executable := executable i; arguments := arguments i;
      environment := v; workingDirectory := workingDirectory i;
      inputs := inputs i; outputs := outputs i; phonyInputs := phonyInputs i;
      inputDependencies := inputDependencies i; orderDependencies := orderDependencies i;
      dependencyInfo := dependencyInfo i; auxiliaryFiles := auxiliaryFiles i;
      logMessage := logMessage i; showEnvironmentInLog := showEnvironmentInLog i;
      createsProductStructure := createsProductStructure i |}
  | SetWorkingDirectory v => {| executable := executable i; arguments := arguments i;
      environment := environment i; workingDirectory := v;
      inputs := inputs i; outputs := outputs i; phonyInputs := phonyInputs i;
      inputDependencies := inputDependencies i; orderDependencies := orderDependencies i;
      dependencyInfo := dependencyInfo i; auxiliaryFiles := auxiliaryFiles i;
      logMessage := logMessage i; showEnvironmentInLog := showEnvironmentInLog i;
      createsProductStructure := createsProductStructure i |}
  | SetInputs v => {| executable := executable i; arguments := arguments i;
      environment := environment i; workingDirectory := workingDirectory i;
      inputs := v; outputs := outputs i; phonyInputs := phonyInputs i;
      inputDependencies := inputDependencies i; orderDependencies := orderDependencies i;
      dependencyInfo := dependencyInfo i; auxiliaryFiles := auxiliaryFiles i;
      logMessage := logMessage i; showEnvironmentInLog := showEnvironmentInLog i;
      createsProductStructure := createsProductStructure i |}
  | SetOutputs v => {| executable := executable i; arguments := arguments i;
      environment := environment i; workingDirectory := workingDirectory i;
      inputs := inputs i; outputs := v; phonyInputs := phonyInputs i;
      inputDependencies := inputDependencies i; orderDependencies := orderDependencies i;
      dependencyInfo := dependencyInfo i; auxiliaryFiles := auxiliaryFiles i;
      logMessage := logMessage i; showEnvironmentInLog := showEnvironmentInLog i;
      createsProductStructure := createsProductStructure i |}
  | SetPhonyInputs v => {| executable := executable i; arguments := arguments i;
      environment := environment i; workingDirectory := workingDirectory i;
      inputs := inputs i; outputs := outputs i; phonyInputs := v;
      inputDependencies := inputDependencies i; orderDependencies := orderDependencies i;
      dependencyInfo := dependencyInfo i; auxiliaryFiles := auxiliaryFiles i;
      logMessage := logMessage i; showEnvironmentInLog := showEnvironmentInLog i;
      createsProductStructure := createsProductStructure i |}
  | SetInputDependencies v => {| executable := executable i; arguments := arguments i;
      environment := environment i; workingDirectory := workingDirectory i;
      inputs := inputs i; outputs := outputs i; phonyInputs := phonyInputs i;
      inputDependencies := v; orderDependencies := orderDependencies i;
      dependencyInfo := dependencyInfo i; auxiliaryFiles := auxiliaryFiles i;
      logMessage := logMessage i; showEnvironmentInLog := showEnvironmentInLog i;
      createsProductStructure := createsProductStructure i |}
  | SetOrderDependencies v => {| executable := executable i; arguments := arguments i;
      environment := environment i; workingDirectory := workingDirectory i;
      inputs := inputs i; outputs := outputs i; phonyInputs := phonyInputs i;
      inputDependencies := inputDependencies i; orderDependencies := v;
      dependencyInfo := dependencyInfo i; auxiliaryFiles := auxiliaryFiles i;
      logMessage := logMessage i; showEnvironmentInLog := showEnvironmentInLog i;
      createsProductStructure := createsProductStructure i |}
  | SetDependencyInfo v => {| executable := executable i; arguments := arguments i;
      environment := environment i; workingDirectory := workingDirectory i;
      inputs := inputs i; outputs := outputs i; phonyInputs := phonyInputs i;
      inputDependencies := inputDependencies i; orderDependencies := orderDependencies i;
      dependencyInfo := v; auxiliaryFiles := auxiliaryFiles i;
      logMessage := logMessage i; showEnvironmentInLog := showEnvironmentInLog i;
      createsProductStructure := createsProductStructure i |}
  | SetAuxiliaryFiles v => {| executable := executable i; arguments := arguments i;
      environment := environment i; workingDirectory := workingDirectory i;
      inputs := inputs i; outputs := outputs i; phonyInputs := phonyInputs i;
      inputDependencies := inputDependencies i; orderDependencies := orderDependencies i;
      dependencyInfo := dependencyInfo i; auxiliaryFiles := v;
      logMessage := logMessage i; showEnvironmentInLog := showEnvironmentInLog i;
      createsProductStructure := createsProductStructure i |}
  | SetLogMessage v => {| executable := executable i; arguments := arguments i;
      environment := environment i; workingDirectory := workingDirectory i;
      inputs := inputs i; outputs := outputs i; phonyInputs := phonyInputs i;
      inputDependencies := inputDependencies i; orderDependencies := orderDependencies i;
      dependencyInfo := dependencyInfo i; auxiliaryFiles := auxiliaryFiles i;
      logMessage := v; showEnvironmentInLog := showEnvironmentInLog i;
      createsProductStructure := createsProductStructure i |}
  | SetShowEnvironmentInLog v => {| executable := executable i; arguments := arguments i;
      environment := environment i; workingDirectory := workingDirectory i;
      inputs := inputs i; outputs := outputs i; phonyInputs := phonyInputs i;
      inputDependencies := inputDependencies i; orderDependencies := orderDependencies i;
      dependencyInfo := dependencyInfo i; auxiliaryFiles := auxiliaryFiles i;
      logMessage := logMessage i; showEnvironmentInLog := v;
      createsProductStructure := createsProductStructure i |}
  | SetCreatesProductStructure v => {| executable := executable i; arguments := arguments i;
      environment := environment i; workingDirectory := workingDirectory i;
      inputs := inputs i; outputs := outputs i; phonyInputs := phonyInputs i;
      inputDependencies := inputDependencies i; orderDependencies := orderDependencies i;
      dependencyInfo := dependencyInfo i; auxiliaryFiles := auxiliaryFiles i;
      logMessage := logMessage i; showEnvironmentInLog := showEnvironmentInLog i;
      createsProductStructure := v |}
  end.

(** A sequence of member uses, in program order. *)
Definition run (ms : list Member) (i : Invocation) : Invocation :=
  fold_left (fun acc m => apply m acc) ms i.

End Invocation.

(* ------------------------------------------------------------------ *)
(** ** process::DefaultContext: the cached accessors *)

Module DefaultContext.

(** The parts of the process the accessors read: the working directory
    (changed by [chdir]), the [environ] array (changed by [setenv]), and
    the values fixed at exec time ([AT_EXECFN], the initial working
    directory captured by the constructor). *)
Record Process := mkProcess {
  cwd        : string;
  environ    : list string;
  execfn     : string;
  initialCwd : string;
}.

(** The function-local statics of one accessor: [static T const *p],
    modelled as an index into the cells allocated by [new T(...)] so far;
    [runs] counts executions of the [call_once] body. *)
Record Cache (V : Type) := mkCache {
  slot  : option nat;
  cells : list V;
  runs  : nat;
}.
Arguments mkCache {V}.
Arguments slot {V}.
Arguments cells {V}.
Arguments runs {V}.

Definition empty_cache {V} : Cache V := mkCache None [] 0.

(** [std::once_flag]: [true] once a [call_once] on it has completed. *)
Definition once_flag := bool.

(** [std::call_once(flag, f)] runs [f] iff the flag has not completed. *)
Definition call_once {S} (flag : once_flag) (f : S -> S) (s : S) : once_flag * S :=
  if flag then (true, s) else (true, f s).

(** One call of an accessor whose body is
      [static T const *p = nullptr; std::once_flag flag;
       std::call_once(flag, []{ ...; p = new T(value); }); return *p;]
    [compute] is the lambda's computation ([None] when it calls [abort()]).
    The flag has automatic storage: it is a fresh, not-completed flag on
    every call.  The result is the cell [*p] refers to and its value. *)
Definition accessor {V} (compute : Process -> option V) (pr : Process) (c : Cache V)
  : option (Cache V * (nat * V)) :=
  let flag : once_flag := false in
  let body (c0 : option (Cache V)) :=
    match c0 with
    | None => None
    | Some c0 =>
        match compute pr with
        | None => None
        | Some v => Some (mkCache (Some (length (cells c0))) ((cells c0 ++ [v])%list) (S (runs c0)))
        end
    end in
  let '(_, c') := call_once flag body (Some c) in
  match c' with
  | None => None
  | Some c' =>
      match slot c' with
      | None => None
      | Some k => match nth_error (cells c') k with
                  | Some v => Some (c', (k, v))
                  | None => None
                  end
      end
  end.

(** [environmentVariables]: split every [environ] entry at its first
    ['='] into [substr(0, offset)] and [substr(offset + 1)]
    ([npos + 1] wraps to [0]), and [insert] it into the map, which keeps
    the first binding of a name. *)
Fixpoint find_char (c : ascii) (s : string) : option nat :=
  match s with
  | EmptyString => None
  | String a s' => if Ascii.eqb a c then Some 0
                   else option_map S (find_char c s')
  end.

Definition split_entry (variable : string) : string * string :=
  match find_char "="%char variable with
  | Some offset => (substring 0 offset variable,
                    substring (S offset) (String.length variable) variable)
  | None => (variable, variable)
  end.

Fixpoint assoc (k : string) (m : list (string * string)) : option string :=
  match m with
  | [] => None
  | (k', v) :: m' => if String.eqb k k' then Some v else assoc k m'
  end.

Definition map_insert (kv : string * string) (m : list (string * string)) :=
  match assoc (fst kv) m with
  | Some _ => m
  | None => (m ++ [kv])%list
  end.

Definition environment_snapshot (pr : Process) : option (list (string * string)) :=
  Some (fold_left (fun m e => map_insert (split_entry e) m) (environ pr) []).

Definition environmentVariables := accessor environment_snapshot.

(** [currentDirectory]: [getcwd(&current[0], current.size())] on a string
    that was only [reserve]d, so the size passed is [current.size() = 0];
    [ERANGE] doubles [size] and retries, any other error [abort()]s. *)
Inductive Errno := EINVAL | ERANGE.

Definition getcwd (pr : Process) (size : nat) : string + Errno :=
  if Nat.eqb size 0 then inr EINVAL
  else if Nat.ltb size (S (String.length (cwd pr))) then inr ERANGE
  else inl (cwd pr).

Definition PATH_MAX := 4096.

Fixpoint getcwd_loop (fuel : nat) (pr : Process) (size : nat) : option string :=
  match fuel with
  | O => None
  | S fuel' =>
      let current := "" in
      match getcwd pr (String.length current) with
      | inl _ => Some current
      | inr ERANGE => getcwd_loop fuel' pr (size * 2)
      | inr EINVAL => None
      end
  end.

Definition current_directory_value (pr : Process) : option string :=
  getcwd_loop 64 pr PATH_MAX.

Definition currentDirectory := accessor current_directory_value.

(** [executablePath] on Linux with glibc >= 2.16: [getauxval(AT_EXECFN)]
    resolved against the initial working directory and normalized;
    [FSUtil] is abstracted by the resolving function. *)
Definition executable_path_value (resolve : string -> string -> string) (pr : Process)
  : option string :=
  Some (resolve (execfn pr) (initialCwd pr)).

Definition executablePath resolve := accessor (executable_path_value resolve).

End DefaultContext.

(* ------------------------------------------------------------------ *)
(** ** libutil::DefaultFilesystem (POSIX build) *)

Module DefaultFilesystem.

Inductive Node := File (bytes : list Z) | Dir.

(** The filesystem: path to node, first binding wins. *)
Definition FS := list (string * Node).

Fixpoint lookup (fs : FS) (p : string) : option Node :=
  match fs with
  | [] => None
  | (q, n) :: fs' => if String.eqb p q then Some n else lookup fs' p
  end.

Fixpoint update (fs : FS) (p : string) (n : Node) : FS :=
  match fs with
  | [] => [(p, n)]
  | (q, m) :: fs' => if String.eqb p q then (q, n) :: fs' else (q, m) :: update fs' p n
  end.

Definition exists_ (fs : FS) (p : string) : bool :=
  match lookup fs p with Some _ => true | None => false end.

(** *** write *)




(** *** read *)

Definition size_t_mod : Z := 2 ^ 64.

(** [size_t] to [long] (LP64, two's complement). *)
Definition to_long (x : Z) : Z := if Z.ltb x (2 ^ 63) then x else x - 2 ^ 64.

(** [long] to [size_t]. *)
Definition to_size_t (x : Z) : Z := x mod size_t_mod.

(** [std::vector<uint8_t>::max_size()] for a 64-bit [ptrdiff_t]. *)
Definition vector_max_size : Z := 2 ^ 63 - 1.

Inductive ReadResult :=
| ReadOk (contents : list Z)   (** returned [true], [*contents] set *)
| ReadFail                     (** returned [false] *)
| ReadThrow.                   (** [std::vector(size)] threw [length_error] *)

(** [fread(buf, size, 1, fp)] at position [pos] of a file holding [bytes]:
    one complete item, or failure. *)
Definition fread (bytes : list Z) (pos size : Z) : option (list Z) :=
  if Z.leb (pos + size) (Z.of_nat (List.length bytes))
  then Some (firstn (Z.to_nat size) (skipn (Z.to_nat pos) bytes))
  else None.

(** [DefaultFilesystem::read(contents, path, offset, length)]; [offset]
    and [length] are [size_t] values in [[0, 2^64)].  [fseek] to a
    non-negative position succeeds (POSIX allows positions past the end);
    a negative [long] position fails with [EINVAL].  A directory is taken
    to fail, as where [lseek(SEEK_END)] on it fails (tmpfs: [EINVAL]);
    on ext4 it reports a huge end offset instead, and the outcome
    ([bad_alloc], or [fread] failing with [EISDIR]) depends on the
    filesystem; the theorems below are all about regular files. *)
Definition read (fs : FS) (path : string) (offset : Z) (length : option Z) : ReadResult :=
  match lookup fs path with
  | None | Some Dir => ReadFail
  | Some (File bytes) =>
      let size := Z.of_nat (List.length bytes) in
      let checked :=
        match length with
        | Some n => if Z.ltb size (to_size_t (offset + n)) then None else Some (to_long n)
        | None => Some size
        end in
      match checked with
      | None => ReadFail
      | Some size =>
          let pos := to_long offset in
          if Z.ltb pos 0 then ReadFail else
          if Z.ltb vector_max_size (to_size_t size) then ReadThrow else
          if Z.ltb 0 size then
            match fread bytes pos size with
            | Some data => ReadOk data
            | None => ReadFail
            end
          else ReadOk []
      end
  end.

(** *** createDirectory *)

Section CreateDirectory.

(** [FSUtil::GetDirectoryName] and [FSUtil::GetBaseName] are not part
    of these sources: the development is generic in them. *)
Variable GetDirectoryName : string -> string.
Variable GetBaseName : string -> string.

(** Whether [mkdir] may create a missing path (parent present and a
    directory, permissions, space); its failure is an errno other than
    [EEXIST]. *)
Variable mkdir_allowed : FS -> string -> bool.

Inductive MkdirResult := MkdirOk | MkdirEEXIST | MkdirOther.

Definition mkdir (fs : FS) (p : string) : FS * MkdirResult :=
  if exists_ fs p then (fs, MkdirEEXIST)
  else if mkdir_allowed fs p then (update fs p Dir, MkdirOk)
  else (fs, MkdirOther).

(** The first loop: [while (current != GetDirectoryName(current))]
    push [GetBaseName(current)]; [None] if it has not stopped within
    [fuel] rounds. *)
Fixpoint collect (fuel : nat) (current : string) (components : list string)
  : option (list string * string) :=
  match fuel with
  | O => None
  | S fuel' =>
      if String.eqb current (GetDirectoryName current) then Some (components, current)
      else collect fuel' (GetDirectoryName current)
             (components ++ [GetBaseName current])%list
  end.

Definition decompose (path : string) : option (list string * string) :=
  collect (S (String.length path)) path [].

(** The second loop, over [components] in reverse: append ["/"] except
    before the first, append the component, [mkdir]; stop with [false]
    on an error other than [EEXIST].  Also returns the paths passed to
    [mkdir], in order. *)
Fixpoint mkdirs (first : bool) (current : string) (rcomps : list string) (fs : FS)
  : FS * list string * bool :=
  match rcomps with
  | [] => (fs, [], true)
  | c :: rest =>
      let current' := if first then current ++ c else current ++ "/" ++ c in
      let '(fs', r) := mkdir fs current' in
      match r with
      | MkdirOther => (fs', [current'], false)
      | _ => let '(fs'', tried, ok) := mkdirs false current' rest fs' in
             (fs'', current' :: tried, ok)
      end
  end.

Definition createDirectory (path : string) (fs : FS) : option (FS * list string * bool) :=
  match decompose path with
  | None => None
  | Some (components, current) => Some (mkdirs true current (rev components) fs)
  end.

(** The paths the second loop builds, all of them. *)
Fixpoint built (first : bool) (current : string) (rcomps : list string) : list string :=
  match rcomps with
  | [] => []
  | c :: rest =>
      let current' := if first then current ++ c else current ++ "/" ++ c in
      current' :: built false current' rest
  end.

End CreateDirectory.

End DefaultFilesystem.

(* ------------------------------------------------------------------ *)
(** ** DependencyInfo reader *)

Module DependencyInfoReader.

Import Invocation DefaultFilesystem.

Inductive ParseResult :=
| Parsed (discovered : list string)
| DependencyInfoParseError (message : string).

Definition byte_of_ascii (a : ascii) : Z := Z.of_nat (nat_of_ascii a).
Definition ascii_of_byte (b : Z) : ascii := ascii_of_nat (Z.to_nat b).

Definition bytes_of_string (s : string) : list Z := map byte_of_ascii (list_ascii_of_string s).
Definition string_of_bytes (bs : list Z) : string := string_of_list_ascii (map ascii_of_byte bs).

(** *** Binary encoding *)

(** Modelled from the spec: the dependency-info parsers are not part of
    the sources.  Spec 6: [[1-byte version][repeated: 1-byte tag
    (0=input,1=output,2=missing) + 4-byte little-endian length + N raw
    path bytes]], terminated by end-of-file; spec 4.3: discovered inputs
    are the input-tagged records, and a truncated record is a parse
    error. *)
Definition le32 (b0 b1 b2 b3 : Z) : Z := b0 + 256 * b1 + 65536 * b2 + 16777216 * b3.

Fixpoint binary_records (fuel : nat) (bs : list Z) : ParseResult :=
  match fuel with
  | O => DependencyInfoParseError "record limit"
  | S fuel' =>
      match bs with
      | [] => Parsed []
      | tag :: b0 :: b1 :: b2 :: b3 :: rest =>
          let len := Z.to_nat (le32 b0 b1 b2 b3) in
          if Nat.ltb (List.length rest) len
          then DependencyInfoParseError "truncated record"
          else
            let path := string_of_bytes (firstn len rest) in
            match binary_records fuel' (skipn len rest) with
            | DependencyInfoParseError m => DependencyInfoParseError m
            | Parsed ins =>
                if Z.eqb tag 0 then Parsed (path :: ins)
                else if Z.eqb tag 1 then Parsed ins
                else if Z.eqb tag 2 then Parsed ins
                else DependencyInfoParseError "unknown record tag"
            end
      | _ :: _ => DependencyInfoParseError "truncated record header"
      end
  end.

Definition parse_binary (bs : list Z) : ParseResult :=
  match bs with
  | [] => DependencyInfoParseError "missing version"
  | _version :: rest => binary_records (S (List.length rest)) rest
  end.

(** *** Make-rule encoding *)

(** Modelled from the spec: [output: input input ...] lines ending in a
    newline, backslash-newline continuation, backslash-space escaping;
    discovered inputs are the tokens after a line's first colon,
    excluding the declared outputs; an unterminated line is a parse
    error. *)
Definition nl : ascii := "010"%char.
Definition bsl : ascii := "\"%char.

Fixpoint join_continuations (cs : list ascii) : list ascii :=
  match cs with
  | a :: ((b :: rest) as tl) =>
      if Ascii.eqb a bsl && Ascii.eqb b nl then " "%char :: join_continuations rest
      else a :: join_continuations tl
  | _ => cs
  end.

Fixpoint split_lines (cs : list ascii) (cur : list ascii) : list (list ascii) :=
  match cs with
  | [] => match cur with [] => [] | _ => [rev cur] end
  | a :: rest => if Ascii.eqb a nl then rev cur :: split_lines rest []
                 else split_lines rest (a :: cur)
  end.

(** Split at the first unescaped colon. *)
Fixpoint split_colon (cs : list ascii) : option (list ascii * list ascii) :=
  match cs with
  | [] => None
  | a :: rest =>
      if Ascii.eqb a bsl then
        match rest with
        | b :: rest' => option_map (fun '(l, r) => (a :: b :: l, r)) (split_colon rest')
        | [] => option_map (fun '(l, r) => (a :: l, r)) (split_colon rest)
        end
      else if Ascii.eqb a ":"%char then Some ([], rest)
      else option_map (fun '(l, r) => (a :: l, r)) (split_colon rest)
  end.

Definition flush (cur : list ascii) (acc : list string) : list string :=
  match cur with [] => acc | _ => (acc ++ [string_of_list_ascii (rev cur)])%list end.

Fixpoint tokens (cs : list ascii) (cur : list ascii) (acc : list string) : list string :=
  match cs with
  | [] => flush cur acc
  | a :: rest =>
      if Ascii.eqb a bsl then
        match rest with
        | b :: rest' => if Ascii.eqb b " "%char then tokens rest' (b :: cur) acc
                        else tokens rest (a :: cur) acc
        | [] => tokens rest (a :: cur) acc
        end
      else if Ascii.eqb a " "%char || Ascii.eqb a "009"%char then tokens rest [] (flush cur acc)
      else tokens rest (a :: cur) acc
  end.

Definition blank (cs : list ascii) : bool :=
  forallb (fun a => Ascii.eqb a " "%char || Ascii.eqb a "009"%char) cs.

Fixpoint make_rules (lines : list (list ascii)) : option (list string * list string) :=
  match lines with
  | [] => Some ([], [])
  | l :: ls =>
      if blank l then make_rules ls else
      match split_colon l, make_rules ls with
      | Some (outs, ins), Some (os, is) =>
          Some ((tokens outs [] [] ++ os)%list, (tokens ins [] [] ++ is)%list)
      | _, _ => None
      end
  end.

Definition parse_makefile (bs : list Z) : ParseResult :=
  let cs := map ascii_of_byte bs in
  match rev cs with
  | [] => Parsed []
  | last :: _ =>
      if negb (Ascii.eqb last nl) then DependencyInfoParseError "unterminated line"
      else match make_rules (split_lines (join_continuations cs) []) with
           | None => DependencyInfoParseError "missing ':'"
           | Some (outs, ins) =>
               Parsed (filter (fun t => negb (existsb (String.eqb t) outs)) ins)
           end
  end.

(** *** Parse(format, path) *)

(** Modelled from the spec: an absent file yields the empty discovered
    set, a present one is parsed in its encoding. *)
Definition Parse (fs : FS) (format : DependencyInfoFormat) (path : string) : ParseResult :=
  match lookup fs path with
  | None => Parsed []
  | Some Dir => DependencyInfoParseError "not a file"
  | Some (File bytes) =>
      match format with
      | Binary => parse_binary bytes
      | Makefile => parse_makefile bytes
      end
  end.

(** *** The binary encoder the round trip is stated for *)

(** Modelled from the spec's wire format: every path an input-tagged
    record; a path of [2^32] bytes or more has no 4-byte length, and the
    encoding fails. *)
Definition le32_bytes (n : Z) : list Z :=
  [(n mod 256)%Z; ((n / 256) mod 256)%Z; ((n / 65536) mod 256)%Z; ((n / 16777216) mod 256)%Z].

Definition encode_record (tag : Z) (path : string) : list Z :=
  (tag :: le32_bytes (Z.of_nat (String.length path)) ++ bytes_of_string path)%list.

Definition encodable (path : string) : bool :=
  Z.ltb (Z.of_nat (String.length path)) (2 ^ 32)%Z.

Definition encode_binary (version : Z) (paths : list string) : option (list Z) :=
  if forallb encodable paths
  then Some (version :: concat (map (encode_record 0) paths))
  else None.

End DependencyInfoReader.

(* ------------------------------------------------------------------ *)
(** ** Staleness detector and one scheduler pass *)

Module Staleness.

Import Invocation.

(** The description rule 3 compares. *)
Record Description := mkDescription {
  d_executable       : option Executable.Executable;
  d_arguments        : list string;
  d_environment      : list (string * string);
  d_workingDirectory : string;
}.

Definition description (i : Invocation) : Description :=
  mkDescription (executable i) (arguments i) (environment i) (workingDirectory i).

Definition option_eqb {A} (eqb : A -> A -> bool) (x y : option A) : bool :=
  match x, y with
  | Some a, Some b => eqb a b
  | None, None => true
  | _, _ => false
  end.

Definition executable_eqb (x y : Executable.Executable) : bool :=
  option_eqb String.eqb (Executable.external x) (Executable.external y)
  && option_eqb String.eqb (Executable.builtin x) (Executable.builtin y).

Fixpoint list_eqb {A} (eqb : A -> A -> bool) (xs ys : list A) : bool :=
  match xs, ys with
  | [], [] => true
  | x :: xs', y :: ys' => eqb x y && list_eqb eqb xs' ys'
  | _, _ => false
  end.

Definition pair_eqb (x y : string * string) : bool :=
  String.eqb (fst x) (fst y) && String.eqb (snd x) (snd y).

Definition description_eqb (a b : Description) : bool :=
  option_eqb executable_eqb (d_executable a) (d_executable b)
  && list_eqb String.eqb (d_arguments a) (d_arguments b)
  && list_eqb pair_eqb (d_environment a) (d_environment b)
  && String.eqb (d_workingDirectory a) (d_workingDirectory b).

(** Modelled from the spec: the persisted incremental state (spec 6),
    keyed by the invocation's output set, holding the recorded
    description and the discovered inputs of the prior build. *)
Record Recorded := mkRecorded {
  r_description : Description;
  r_discovered  : list string;
}.

Definition PriorState := list (list string * Recorded).

Fixpoint find_record (prior : PriorState) (outs : list string) : option Recorded :=
  match prior with
  | [] => None
  | (k, r) :: rest => if list_eqb String.eqb k outs then Some r else find_record rest outs
  end.

(** Modification times on disk; [None] for a path that does not exist. *)
Definition MTimes := string -> option Z.

Fixpoint oldest (mt : MTimes) (outs : list string) : option Z :=
  match outs with
  | [] => None
  | o :: rest =>
      match mt o, oldest mt rest with
      | Some t, Some u => Some (Z.min t u)
      | Some t, None => Some t
      | None, u => u
      end
  end.

(** A present path newer than [limit]; an absent path is never newer
    (spec 4.4 rule 4 for phony inputs). *)
Definition newer (mt : MTimes) (limit : option Z) (p : string) : bool :=
  match mt p, limit with
  | Some t, Some l => Z.ltb l t
  | _, _ => false
  end.

(** Modelled from the spec: [IsStale(invocation, priorState)], spec 4.4
    rules 1 to 5 in order; [orderDependencies] take no part. *)
Definition IsStale (mt : MTimes) (i : Invocation) (prior : PriorState) : bool :=
  if existsb (fun o => match mt o with None => true | Some _ => false end) (outputs i)
  then true
  else
    let rec := find_record prior (outputs i) in
    let discovered := match rec with Some r => r_discovered r | None => [] end in
    let limit := oldest mt (outputs i) in
    if existsb (newer mt limit)
         (inputs i ++ inputDependencies i ++ discovered ++ phonyInputs i)%list
    then true
    else match rec with
         | None => true
         | Some r => negb (description_eqb (description i) (r_description r))
         end.

(** Modelled from the spec: one scheduler pass with every predecessor
    already settled; the invocations that run are the stale ones, the
    others are [Skipped]. *)
Definition executed (mt : MTimes) (invs : list Invocation) (prior : PriorState)
  : list Invocation :=
  filter (fun i => IsStale mt i prior) invs.

End Staleness.

(* ------------------------------------------------------------------ *)
(** ** DefaultContext::environmentVariable *)

Module DefaultContextEnv.

Import DefaultContext.

(** [std::string::c_str()] read as a C string: the bytes up to the first
    NUL. *)
Fixpoint c_str (s : string) : string :=
  match s with
  | EmptyString => EmptyString
  | String a s' => if Ascii.eqb a "000"%char then EmptyString else String a (c_str s')
  end.

(** glibc's [getenv]: [NULL] for an empty name; otherwise the first
    [environ] entry that starts with the name followed by ['='], the bytes
    after that ['='] being the value. *)
Fixpoint getenv_scan (name : string) (env : list string) : option string :=
  match env with
  | [] => None
  | e :: rest =>
      if String.prefix name e &&
         match String.get (String.length name) e with
         | Some a => Ascii.eqb a "="%char
         | None => false
         end
      then Some (substring (S (String.length name)) (String.length e) e)
      else getenv_scan name rest
  end.

Definition getenv (env : list string) (name : string) : option string :=
  if String.eqb name "" then None else getenv_scan name env.

(** [environmentVariable(variable)] (POSIX): [getenv(variable.c_str())]. *)
Definition environmentVariable (pr : Process) (variable : string) : option string :=
  getenv (environ pr) (c_str variable).

End DefaultContextEnv.

(* ------------------------------------------------------------------ *)
(** ** DefaultFilesystem: createFile, removeFile, symbolic links *)

Module DefaultFilesystemOps.

Import DefaultFilesystem.

(** *** createFile *)

Section CreateFile.

(** [access(path, W_OK)] on an existing path: the permission check. *)
Variable write_permitted : FS -> string -> bool.
(** Whether [fopen(path, "w")] may open a path that is not a directory
    (parent present, permissions, space). *)
Variable fopen_w_allowed : FS -> string -> bool.

(** [isWritable]: [access(path, W_OK) == 0], which fails with [ENOENT] on
    a missing path. *)
Definition isWritable (fs : FS) (path : string) : bool :=
  exists_ fs path && write_permitted fs path.

(** [fopen(path, "w")] then [fclose]: creates or truncates to an empty
    file; it fails with [EISDIR] on a directory. *)
Definition fopen_w (fs : FS) (path : string) : option FS :=
  match lookup fs path with
  | Some Dir => None
  | _ => if fopen_w_allowed fs path then Some (update fs path (File [])) else None
  end.

(** [DefaultFilesystem::createFile]. *)
Definition createFile (path : string) (fs : FS) : FS * bool :=
  if isWritable fs path then (fs, true)
  else match fopen_w fs path with
       | Some fs' => (fs', true)
       | None => (fs, false)
       end.

End CreateFile.

(** *** removeFile *)

(** Every binding of [p] dropped. *)
Definition remove (fs : FS) (p : string) : FS :=
  filter (fun qn => negb (String.eqb p (fst qn))) fs.

(** [unlink(path)]: removes a non-directory entry when allowed ([allowed]:
    permissions of the parent, no [EBUSY] and the like at that moment);
    [ENOENT] on a missing path, [EISDIR] on a directory. *)
Definition unlink (allowed : bool) (fs : FS) (path : string) : option FS :=
  match lookup fs path with
  | Some (File _) => if allowed then Some (remove fs path) else None
  | Some Dir | None => None
  end.

(** [DefaultFilesystem::removeFile]: [unlink], and once more when the
    first attempt fails; [first_ok] and [second_ok] are what the
    environment allows at each attempt. *)
Definition removeFile (first_ok second_ok : bool) (path : string) (fs : FS) : FS * bool :=
  match unlink first_ok fs path with
  | Some fs' => (fs', true)
  | None =>
      match unlink second_ok fs path with
      | Some fs' => (fs', true)
      | None => (fs, false)
      end
  end.

(** *** Symbolic links *)

(** The namespace as [lstat] sees it: a node, or a symbolic link holding
    its target. *)
Inductive Entry := Plain (n : Node) | Link (target : string).

Definition Names := list (string * Entry).

Fixpoint lookup_entry (ns : Names) (p : string) : option Entry :=
  match ns with
  | [] => None
  | (q, e) :: ns' => if String.eqb p q then Some e else lookup_entry ns' p
  end.

Definition exists_entry (ns : Names) (p : string) : bool :=
  match lookup_entry ns p with Some _ => true | None => false end.

(** [readlink(path, buffer, bufsiz)]: the first [bufsiz] bytes of the
    target, silently truncated; [EINVAL] when [path] is not a link,
    [ENOENT] when it is missing. *)
Definition readlink (ns : Names) (path : string) (bufsiz : nat) : option string :=
  match lookup_entry ns path with
  | Some (Link target) => Some (substring 0 bufsiz target)
  | _ => None
  end.

(** [DefaultFilesystem::readSymbolicLink]: [char buffer[PATH_MAX]],
    [readlink] with [sizeof(buffer) - 1], [buffer[len] = '\0'], and
    [std::string(buffer)]. *)
Definition readSymbolicLink (ns : Names) (path : string) : option string :=
  match readlink ns (DefaultContextEnv.c_str path) (DefaultContext.PATH_MAX - 1) with
  | Some bytes => Some (DefaultContextEnv.c_str bytes)
  | None => None
  end.

(** [symlink(target, path)]: [ENAMETOOLONG] when the target or the path
    has [PATH_MAX = 4096] bytes or more (the kernel copies both names with
    [getname], which refuses a string that does not fit [PATH_MAX] bytes
    with its NUL); [EEXIST] when [path] exists (a dangling link included),
    [ENOENT] for an empty target; otherwise a new link when the environment
    allows it ([allowed]: parent directory present, permissions, space,
    component lengths). *)
Definition symlink (allowed : bool) (ns : Names) (target path : string) : option Names :=
  if Nat.leb DefaultContext.PATH_MAX (String.length target) then None
  else if Nat.leb DefaultContext.PATH_MAX (String.length path) then None
  else if exists_entry ns path then None
  else if String.eqb target "" then None
  else if allowed then Some ((path, Link target) :: ns) else None.

(** [DefaultFilesystem::writeSymbolicLink]. *)
Definition writeSymbolicLink (allowed : bool) (target path : string) (ns : Names)
  : Names * bool :=
  match symlink allowed ns (DefaultContextEnv.c_str target) (DefaultContextEnv.c_str path) with
  | Some ns' => (ns', true)
  | None => (ns, false)
  end.

End DefaultFilesystemOps.

(* ================================================================== *)
(** * Properties *)

Module ExecutableFacts.

Import Executable.

Example determine_empty : Determine "" = None.
Proof. reflexivity. Qed.

Example determine_builtin : Determine "builtin-copy" = Some (Builtin "builtin-copy").
Proof. reflexivity. Qed.

Example determine_external : Determine "/usr/bin/clang" = Some (External "/usr/bin/clang").
Proof. reflexivity. Qed.

Lemma prefix_nonempty (s : string) :
  String.prefix builtinPrefix s = true -> s <> "".
Proof. intros H ->. discriminate H. Qed.

(** C2: [Determine raw] is absent for the empty string, [Builtin raw]
    (prefix kept) when [raw] starts with ["builtin-"], and [External raw]
    otherwise: a total function of [raw] alone, reading no filesystem. *)
Theorem Determine_classifies (raw : string) :
  (raw = "" -> Determine raw = None) /\
  (String.prefix "builtin-" raw = true -> Determine raw = Some (Builtin raw)) /\
  (raw <> "" -> String.prefix "builtin-" raw = false -> Determine raw = Some (External raw)).
Proof.
  unfold Determine. repeat split.
  - intros ->. reflexivity.
  - intros Hp. pose proof (prefix_nonempty raw Hp) as Hne.
    apply String.eqb_neq in Hne. rewrite Hne. unfold builtinPrefix. rewrite Hp. reflexivity.
  - intros Hne Hp. apply String.eqb_neq in Hne. rewrite Hne.
    unfold builtinPrefix. rewrite Hp. reflexivity.
Qed.

Lemma Determine_classifies_witness :
  Determine "builtin-copy" = Some (Builtin "builtin-copy").
Proof. apply (proj1 (proj2 (Determine_classifies "builtin-copy"))). reflexivity. Defined.

End ExecutableFacts.

Module SimpleXMLFacts.

Import SimpleXML.

(** C10: SimpleXML is deserialize-only: [Serialize] returns no bytes and
    ["not yet implemented"] for every object and format, [Identify]
    returns null for every input, so no serialized bytes exist to feed a
    round trip. *)
Theorem SimpleXML_deserialize_only :
  (forall (o : Object) (f : SimpleXML), Serialize o f = (None, "not yet implemented")) /\
  (forall contents : list Z, Identify contents = None) /\
  (forall (o : Object) (f : SimpleXML) (bytes : list Z), fst (Serialize o f) <> Some bytes).
Proof.
  repeat split.
  intros o f bytes H. discriminate H.
Qed.

End SimpleXMLFacts.

Module InvocationFacts.

Import Invocation.

(** C3 (as stated): no member use changes a constructed Invocation.
    False: assigning through the non-const [arguments()] reference of a
    default-constructed Invocation changes its arguments. *)
Lemma Invocation_mutable_counterexample :
  ~ (forall (m : Member) (i : Invocation), apply m i = i).
Proof.
  intros H. specialize (H (SetArguments ["cc"]) default).
  discriminate H.
Qed.

Lemma run_app (ms1 ms2 : list Member) (i : Invocation) :
  run (ms1 ++ ms2) i = run ms2 (run ms1 i).
Proof. unfold run. apply fold_left_app. Qed.

(** C3 (amended): the const accessors leave an Invocation unchanged,
    while every field has a non-const accessor through which it is
    overwritten after construction, and such a write changes that field
    only (shown for all fourteen fields by their projections). *)
Theorem Invocation_fields_writable :
  (forall (ms : list string) (i : Invocation), run (map Get ms) i = i) /\
  (forall i v, executable (apply (SetExecutable v) i) = v) /\
  (forall i v, arguments (apply (SetArguments v) i) = v) /\
  (forall i v, environment (apply (SetEnvironment v) i) = v) /\
  (forall i v, workingDirectory (apply (SetWorkingDirectory v) i) = v) /\
  (forall i v, inputs (apply (SetInputs v) i) = v) /\
  (forall i v, outputs (apply (SetOutputs v) i) = v) /\
  (forall i v, phonyInputs (apply (SetPhonyInputs v) i) = v) /\
  (forall i v, inputDependencies (apply (SetInputDependencies v) i) = v) /\
  (forall i v, orderDependencies (apply (SetOrderDependencies v) i) = v) /\
  (forall i v, dependencyInfo (apply (SetDependencyInfo v) i) = v) /\
  (forall i v, auxiliaryFiles (apply (SetAuxiliaryFiles v) i) = v) /\
  (forall i v, logMessage (apply (SetLogMessage v) i) = v) /\
  (forall i v, showEnvironmentInLog (apply (SetShowEnvironmentInLog v) i) = v) /\
  (forall i v, createsProductStructure (apply (SetCreatesProductStructure v) i) = v) /\
  (forall i v, apply (SetArguments v) i =
     mkInvocation (executable i) v (environment i) (workingDirectory i) (inputs i)
       (outputs i) (phonyInputs i) (inputDependencies i) (orderDependencies i)
       (dependencyInfo i) (auxiliaryFiles i) (logMessage i) (showEnvironmentInLog i)
       (createsProductStructure i)).
Proof.
  repeat split; try reflexivity.
  intros ms. induction ms as [|m ms IH]; intro i; [reflexivity|].
  simpl. apply IH.
Qed.

End InvocationFacts.

Module DefaultContextFacts.

Import DefaultContext.

Definition proc0 : Process := mkProcess "/home/u/src" ["A=1"; "PATH=/bin"] "xcbuild" "/home/u/src".

(** [setenv("A", "2", 1)] between the two calls. *)
Definition proc1 : Process := mkProcess "/home/u/src" ["A=2"; "PATH=/bin"] "xcbuild" "/home/u/src".

Example env_first_call :
  option_map (fun r => snd (snd r)) (environmentVariables proc0 empty_cache)
  = Some [("A", "1"); ("PATH", "/bin")].
Proof. reflexivity. Qed.

(** C7 (as stated) fails: two calls of [environmentVariables] within one
    process run the initialisation twice (even with the environment
    unchanged), and after a [setenv] between them the second call returns
    a different snapshot from the first. *)
Lemma environmentVariables_two_calls :
  (match environmentVariables proc0 empty_cache with
   | Some (c1, _) =>
       match environmentVariables proc0 c1 with
       | Some (c2, _) => runs c2
       | None => 0
       end
   | None => 0
   end = 2) /\
  (match environmentVariables proc0 empty_cache with
   | Some (c1, (_, v1)) =>
       match environmentVariables proc1 c1 with
       | Some (_, (_, v2)) => v1 <> v2
       | None => False
       end
   | None => False
   end).
Proof.
  split; [reflexivity|].
  vm_compute. discriminate.
Qed.

(** C7 (code): every call of a cached accessor runs its [call_once] body,
    because the [std::once_flag] is a fresh local on each call: the body
    computes a new value from the current process state, allocates a new
    cell for it, and the call returns that cell, never an earlier one. *)
Theorem accessor_runs_every_call {V} (compute : Process -> option V)
    (pr : Process) (c : Cache V) (v : V) :
  compute pr = Some v ->
  accessor compute pr c =
    Some (mkCache (Some (List.length (cells c))) (cells c ++ [v])%list (S (runs c)),
          (List.length (cells c), v)).
Proof.
  intros Hc. unfold accessor, call_once. simpl. rewrite Hc. simpl.
  rewrite nth_error_app2 by lia. rewrite Nat.sub_diag. reflexivity.
Qed.

Lemma accessor_runs_every_call_witness :
  environmentVariables proc1
    (mkCache (Some 0) [[("A", "1"); ("PATH", "/bin")]] 1)
  = Some (mkCache (Some 1) [[("A", "1"); ("PATH", "/bin")]; [("A", "2"); ("PATH", "/bin")]] 2,
          (1, [("A", "2"); ("PATH", "/bin")])).
Proof.
  apply (accessor_runs_every_call environment_snapshot proc1
           (mkCache (Some 0) [[("A", "1"); ("PATH", "/bin")]] 1)
           [("A", "2"); ("PATH", "/bin")]).
  reflexivity.
Defined.

(** The same defect's second face: [currentDirectory] passes
    [current.size() = 0] to [getcwd], gets [EINVAL] and aborts on every
    call. *)
Lemma currentDirectory_aborts (pr : Process) (c : Cache string) :
  currentDirectory pr c = None.
Proof. reflexivity. Qed.

End DefaultContextFacts.

Module FilesystemFacts.

Import DefaultFilesystem.

Lemma lookup_update_eq (fs : FS) (p : string) (n : Node) :
  lookup (update fs p n) p = Some n.
Proof.
  induction fs as [|[q m] fs IH]; simpl.
  - rewrite String.eqb_refl. reflexivity.
  - destruct (String.eqb p q) eqn:E; simpl.
    + rewrite E. reflexivity.
    + rewrite E. exact IH.
Qed.

Lemma lookup_update_neq (fs : FS) (p q : string) (n : Node) :
  q <> p -> lookup (update fs p n) q = lookup fs q.
Proof.
  intros Hne. induction fs as [|[r m] fs IH]; simpl.
  - apply String.eqb_neq in Hne. rewrite Hne. reflexivity.
  - destruct (String.eqb p r) eqn:E; simpl.
    + apply String.eqb_eq in E. subst r.
      apply String.eqb_neq in Hne. rewrite Hne. reflexivity.
    + destruct (String.eqb q r); [reflexivity | exact IH].
Qed.







Local Open Scope Z_scope.

Example read_whole : read [("f", File [1; 2; 3]%Z)] "f" 0 None = ReadOk [1; 2; 3]%Z.
Proof. reflexivity. Qed.

Example read_offset_no_length : read [("f", File [1; 2; 3]%Z)] "f" 1 None = ReadFail.
Proof. reflexivity. Qed.

Example read_range_ok : read [("f", File [1; 2; 3]%Z)] "f" 1 (Some 2%Z) = ReadOk [2; 3]%Z.
Proof. reflexivity. Qed.

Example read_wrap_throws :
  read [("f", File [1; 2; 3]%Z)] "f" 1 (Some (2 ^ 64 - 1)%Z) = ReadThrow.
Proof. reflexivity. Qed.

Lemma to_long_small (x : Z) : 0 <= x < 2 ^ 63 -> to_long x = x.
Proof.
  intros H. unfold to_long. destruct (Z.ltb_spec x (2 ^ 63)); lia.
Qed.

Lemma fread_ok (bytes : list Z) (pos size : Z) :
  pos + size <= Z.of_nat (List.length bytes) ->
  fread bytes pos size = Some (firstn (Z.to_nat size) (skipn (Z.to_nat pos) bytes)).
Proof.
  intros H. unfold fread. destruct (Z.leb_spec (pos + size) (Z.of_nat (List.length bytes))); [reflexivity | lia].
Qed.

Lemma fread_short (bytes : list Z) (pos size : Z) :
  Z.of_nat (List.length bytes) < pos + size -> fread bytes pos size = None.
Proof.
  intros H. unfold fread. destruct (Z.leb_spec (pos + size) (Z.of_nat (List.length bytes))); [lia | reflexivity].
Qed.

(** The explicit-length path, exactly: the requested range read when it
    fits, otherwise no success ([false], or [length_error] when
    [offset + length] wraps around and [(long)length] is negative). *)
Lemma read_with_length (fs : FS) (path : string) (bytes : list Z) (o n : Z) :
  lookup fs path = Some (File bytes) ->
  0 <= o < 2 ^ 64 -> 0 <= n < 2 ^ 64 -> Z.of_nat (List.length bytes) < 2 ^ 63 ->
  (o + n <= Z.of_nat (List.length bytes) ->
     read fs path o (Some n) = ReadOk (firstn (Z.to_nat n) (skipn (Z.to_nat o) bytes))) /\
  (Z.of_nat (List.length bytes) < o + n -> forall c, read fs path o (Some n) <> ReadOk c).
Proof.
  intros Hl Ho Hn Hs. unfold read. rewrite Hl.
  set (s := Z.of_nat (List.length bytes)) in *.
  assert (Hs0 : 0 <= s) by (subst s; lia).
  split.
  - intros Hfit.
    assert (Hm : to_size_t (o + n) = o + n)
      by (unfold to_size_t, size_t_mod; apply Z.mod_small; lia).
    rewrite Hm. destruct (Z.ltb_spec s (o + n)); [lia|].
    rewrite (to_long_small n) by lia. rewrite (to_long_small o) by lia.
    destruct (Z.ltb_spec o 0); [lia|].
    assert (Hn' : to_size_t n = n) by (unfold to_size_t, size_t_mod; apply Z.mod_small; lia).
    rewrite Hn'. destruct (Z.ltb_spec vector_max_size n); [unfold vector_max_size in *; lia|].
    destruct (Z.ltb_spec 0 n).
    + rewrite fread_ok by (subst s; lia). reflexivity.
    + assert (n = 0) by lia. subst n. reflexivity.
  - intros Hbig c.
    destruct (Z.ltb_spec (o + n) (2 ^ 64)) as [Hlt | Hge].
    + assert (Hm : to_size_t (o + n) = o + n)
        by (unfold to_size_t, size_t_mod; apply Z.mod_small; lia).
      rewrite Hm. destruct (Z.ltb_spec s (o + n)); [discriminate | lia].
    + assert (Hm : to_size_t (o + n) = o + n - 2 ^ 64).
      { unfold to_size_t, size_t_mod.
        rewrite <- (Z.mod_small (o + n - 2 ^ 64) (2 ^ 64)) by lia.
        replace (o + n) with ((o + n - 2 ^ 64) + 1 * 2 ^ 64) at 1 by lia.
        apply Z_mod_plus_full. }
      rewrite Hm. destruct (Z.ltb_spec s (o + n - 2 ^ 64)); [discriminate|].
      assert (Hn' : to_size_t (n - 2 ^ 64) = n).
      { unfold to_size_t, size_t_mod.
        replace (n - 2 ^ 64) with (n + (-1) * 2 ^ 64) by lia.
        rewrite Z_mod_plus_full. apply Z.mod_small. lia. }
      unfold to_long. destruct (Z.ltb_spec n (2 ^ 63)) as [Hn63 | Hn63].
      * destruct (Z.ltb_spec o (2 ^ 63)); [lia|].
        destruct (Z.ltb_spec (o - 2 ^ 64) 0); [discriminate | lia].
      * rewrite Hn'. destruct (Z.ltb_spec o (2 ^ 63)).
        -- destruct (Z.ltb_spec o 0); [lia|].
           destruct (Z.ltb_spec vector_max_size n); [discriminate|].
           unfold vector_max_size in *; lia.
        -- destruct (Z.ltb_spec (o - 2 ^ 64) 0); [discriminate | lia].
Qed.

(** The no-length path: it reads [size] bytes from [offset], so it
    succeeds at offset [0] with the whole file, on an empty file with no
    bytes, and never at a positive offset of a non-empty file. *)
Lemma read_without_length (fs : FS) (path : string) (bytes : list Z) (o : Z) :
  lookup fs path = Some (File bytes) ->
  0 <= o < 2 ^ 64 -> Z.of_nat (List.length bytes) < 2 ^ 63 ->
  (forall c, read fs path o None = ReadOk c ->
     (bytes = [] \/ o = 0) /\ c = firstn (List.length bytes) (skipn (Z.to_nat o) bytes)) /\
  read fs path 0 None = ReadOk bytes /\
  (0 < o -> bytes <> [] -> read fs path o None = ReadFail).
Proof.
  intros Hl Ho Hs. unfold read. rewrite Hl.
  set (s := Z.of_nat (List.length bytes)) in *.
  assert (Hsz : to_size_t s = s)
    by (unfold to_size_t, size_t_mod; apply Z.mod_small; subst s; lia).
  assert (Hfull : firstn (List.length bytes) bytes = bytes) by apply firstn_all.
  split; [|split].
  - intros c. destruct (Z.ltb_spec o (2 ^ 63)).
    + rewrite (to_long_small o) by lia. destruct (Z.ltb_spec o 0); [discriminate|].
      rewrite Hsz. destruct (Z.ltb_spec vector_max_size s); [discriminate|].
      destruct (Z.ltb_spec 0 s).
      * destruct (Z.eq_dec o 0) as [-> | Hne].
        -- rewrite fread_ok by (subst s; lia). intros Hr. injection Hr as <-.
           subst s. rewrite Nat2Z.id. split; [right; reflexivity | reflexivity].
        -- rewrite fread_short by (subst s; lia). discriminate.
      * intros Hr. injection Hr as <-.
        destruct bytes; [|subst s; simpl in *; lia].
        split; [left; reflexivity | destruct (Z.to_nat o); reflexivity].
    + unfold to_long at 1. destruct (Z.ltb_spec o (2 ^ 63)); [lia|].
      destruct (Z.ltb_spec (o - 2 ^ 64) 0); [discriminate | lia].
  - simpl. rewrite Hsz. destruct (Z.ltb_spec vector_max_size s);
      [unfold vector_max_size in *; lia|].
    destruct (Z.ltb_spec 0 s).
    + rewrite (to_long_small 0) by lia.
      rewrite fread_ok by (subst s; lia). subst s. rewrite Nat2Z.id. simpl. rewrite Hfull. reflexivity.
    + destruct bytes; [reflexivity | subst s; simpl in *; lia].
  - intros Hpos Hne. destruct bytes as [|b bs]; [congruence|].
    destruct (Z.ltb_spec o (2 ^ 63)).
    + rewrite (to_long_small o) by lia. destruct (Z.ltb_spec o 0); [lia|].
      rewrite Hsz. destruct (Z.ltb_spec vector_max_size s); [unfold vector_max_size in *; lia|].
      destruct (Z.ltb_spec 0 s); [|subst s; simpl in *; lia].
      rewrite fread_short by (subst s; lia). reflexivity.
    + unfold to_long at 1. destruct (Z.ltb_spec o (2 ^ 63)); [lia|].
      destruct (Z.ltb_spec (o - 2 ^ 64) 0); [reflexivity | lia].
Qed.

(** C9: for an existing readable file of [s] bytes ([s < 2^63], as
    [ftell] returns a [long]) and [size_t] arguments: with a length [n]
    the call succeeds iff [o + n <= s], filling [contents] with the [n]
    bytes from [o]; with no length it succeeds only when the range
    [[o, o + s)] lies within the file (empty, or [o = 0]), so a positive
    offset on a non-empty file always fails. *)
Theorem read_range_contract (fs : FS) (path : string) (bytes : list Z) (o n : Z) :
  lookup fs path = Some (File bytes) ->
  0 <= o < 2 ^ 64 -> 0 <= n < 2 ^ 64 -> Z.of_nat (List.length bytes) < 2 ^ 63 ->
  ((exists c, read fs path o (Some n) = ReadOk c) <-> o + n <= Z.of_nat (List.length bytes)) /\
  (forall c, read fs path o (Some n) = ReadOk c ->
     c = firstn (Z.to_nat n) (skipn (Z.to_nat o) bytes) /\ Z.of_nat (List.length c) = n) /\
  (forall c, read fs path o None = ReadOk c ->
     (List.length bytes = 0%nat \/ o + Z.of_nat (List.length bytes) <= Z.of_nat (List.length bytes)) /\
     c = firstn (List.length bytes) (skipn (Z.to_nat o) bytes)) /\
  (0 < o -> bytes <> [] -> read fs path o None = ReadFail).
Proof.
  intros Hl Ho Hn Hs.
  destruct (read_with_length fs path bytes o n Hl Ho Hn Hs) as [Hfit Hbig].
  destruct (read_without_length fs path bytes o Hl Ho Hs) as [Hnone [_ Hpos]].
  split; [|split; [|split]].
  - split.
    + intros [c Hc]. destruct (Z.le_gt_cases (o + n) (Z.of_nat (List.length bytes))) as [Hle|Hgt];
        [exact Hle | exfalso; exact (Hbig Hgt c Hc)].
    + intros Hle. eexists. exact (Hfit Hle).
  - intros c Hc.
    destruct (Z.le_gt_cases (o + n) (Z.of_nat (List.length bytes))) as [Hle|Hgt];
      [|exfalso; exact (Hbig Hgt c Hc)].
    rewrite (Hfit Hle) in Hc. injection Hc as <-. split; [reflexivity|].
    rewrite length_firstn, length_skipn. lia.
  - intros c Hc. destruct (Hnone c Hc) as [[-> | ->] Hc'].
    + split; [left; reflexivity | exact Hc'].
    + split; [right; lia | exact Hc'].
  - exact Hpos.
Qed.

Lemma read_range_contract_witness :
  lookup [("f", File [1; 2; 3]%Z)] "f" = Some (File [1; 2; 3]%Z) /\
  read [("f", File [1; 2; 3]%Z)] "f" 1 None = ReadFail.
Proof.
  split; [reflexivity|].
  apply (read_range_contract [("f", File [1; 2; 3]%Z)] "f" [1; 2; 3]%Z 1 2);
    first [reflexivity | lia | discriminate].
Defined.

End FilesystemFacts.

Module CreateDirectoryFacts.

Import DefaultFilesystem FilesystemFacts.

Section Walk.

Variable GetDirectoryName : string -> string.
Variable GetBaseName : string -> string.
Variable mkdir_allowed : FS -> string -> bool.











Lemma mkdir_keeps (fs : FS) (p q : string) :
  exists_ fs q = true -> lookup (fst (mkdir mkdir_allowed fs p)) q = lookup fs q.
Proof.
  intros Hq. unfold mkdir. destruct (exists_ fs p) eqn:Ep; [reflexivity|].
  destruct (mkdir_allowed fs p); [|reflexivity].
  simpl. apply lookup_update_neq. intros ->. congruence.
Qed.

Lemma mkdir_outcome (fs : FS) (p : string) :
  (snd (mkdir mkdir_allowed fs p) <> MkdirOther -> exists_ (fst (mkdir mkdir_allowed fs p)) p = true) /\
  (snd (mkdir mkdir_allowed fs p) = MkdirOther ->
     fst (mkdir mkdir_allowed fs p) = fs /\ exists_ fs p = false).
Proof.
  unfold mkdir. destruct (exists_ fs p) eqn:Ep.
  - simpl. split; [intros _; exact Ep | discriminate].
  - destruct (mkdir_allowed fs p); simpl.
    + split; [|discriminate]. intros _. unfold exists_. rewrite lookup_update_eq. reflexivity.
    + split; [congruence | auto].
Qed.

Lemma exists_keep (fs fs' : FS) (q : string) :
  exists_ fs q = true -> lookup fs' q = lookup fs q -> exists_ fs' q = true.
Proof. unfold exists_. intros H E. rewrite E. exact H. Qed.

(** The second loop: its attempts are a prefix of the built paths, all
    of them when it returns [true]; existing entries are left as they
    are; a [false] result comes right after the one failed [mkdir],
    whose path is still missing. *)
Lemma mkdirs_spec (rcomps : list string) (first : bool) (cur : string) (fs : FS)
    (fs' : FS) (tried : list string) (ok : bool) :
  mkdirs mkdir_allowed first cur rcomps fs = (fs', tried, ok) ->
  (exists rest, built first cur rcomps = (tried ++ rest)%list) /\
  (ok = true -> tried = built first cur rcomps) /\
  (ok = true -> forall p, In p tried -> exists_ fs' p = true) /\
  (ok = false -> exists pre p, tried = (pre ++ [p])%list /\ exists_ fs' p = false) /\
  (forall q, exists_ fs q = true -> lookup fs' q = lookup fs q).
Proof.
  revert first cur fs fs' tried ok.
  induction rcomps as [|c rest IH]; intros first cur fs fs' tried ok H.
  - simpl in H. injection H as <- <- <-.
    split; [exists []; reflexivity|].
    split; [reflexivity|]. split; [intros _ p []|].
    split; [discriminate | reflexivity].
  - cbn [mkdirs] in H. set (cur' := if first then cur ++ c else cur ++ "/" ++ c) in *.
    pose proof (mkdir_keeps fs cur') as Hkeep.
    pose proof (mkdir_outcome fs cur') as [Hsucc Hfail].
    destruct (mkdir mkdir_allowed fs cur') as [fs1 r] eqn:Em. simpl in Hkeep, Hsucc, Hfail.
    destruct r; cbv beta iota in H.
    1, 2: destruct (mkdirs mkdir_allowed false cur' rest fs1) as [[fs2 tried2] ok2] eqn:Er;
      cbv beta iota in H; injection H as <- <- <-;
      destruct (IH false cur' fs1 fs2 tried2 ok2 Er) as [[rest2 Hpre] [Hall [Hex [Hbad Hkeep2]]]];
      assert (Hcur : exists_ fs1 cur' = true) by (apply Hsucc; discriminate);
      cbn [built]; fold cur'; split; [exists rest2; rewrite Hpre; reflexivity|];
      split; [intros Hok; rewrite (Hall Hok); reflexivity|];
      split; [intros Hok p [<- | Hin];
              [ exact (exists_keep _ _ _ Hcur (Hkeep2 _ Hcur)) | exact (Hex Hok p Hin) ]|];
      split; [intros Hko; destruct (Hbad Hko) as [pre [p [Ht Hp]]];
              exists (cur' :: pre), p; rewrite Ht; split; [reflexivity | exact Hp]|];
      intros q Hq; rewrite (Hkeep2 q (exists_keep _ _ _ Hq (Hkeep q Hq))); exact (Hkeep q Hq).
    destruct (Hfail eq_refl) as [-> Hmiss].
    injection H as <- <- <-. cbn [built]; fold cur'.
    split; [eexists; reflexivity|].
    split; [discriminate|]. split; [discriminate|].
    split; [intros _; exists [], cur'; split; [reflexivity | exact Hmiss]|].
    reflexivity.
Qed.

End Walk.


(** A directory-name / base-name pair (split at the last ['/'], the root
    ["/"] its own directory) to instantiate the statement with. *)
Fixpoint last_slash (s : string) (i : nat) (acc : option nat) : option nat :=
  match s with
  | EmptyString => acc
  | String a s' => last_slash s' (S i) (if Ascii.eqb a "/"%char then Some i else acc)
  end.

Definition example_dirname (s : string) : string :=
  match last_slash s 0 None with
  | None => ""
  | Some 0 => "/"
  | Some k => substring 0 k s
  end.

Definition example_basename (s : string) : string :=
  match last_slash s 0 None with
  | None => s
  | Some k => substring (S k) (String.length s) s
  end.

Definition example_fs : FS := [("/", Dir); ("/tmp", Dir)].

Example example_run :
  createDirectory example_dirname example_basename (fun _ _ => true) "/tmp/a/b" example_fs
  = Some ([("/", Dir); ("/tmp", Dir); ("/tmp/a", Dir); ("/tmp/a/b", Dir)],
          ["/tmp"; "/tmp/a"; "/tmp/a/b"], true).
Proof. reflexivity. Qed.


End CreateDirectoryFacts.

Module DependencyInfoFacts.

Import Invocation DefaultFilesystem FilesystemFacts DependencyInfoReader.

Example parse_encoded :
  encode_binary 0 ["a.h"; "b.h"] = Some [0; 0; 3; 0; 0; 0; 97; 46; 104; 0; 3; 0; 0; 0; 98; 46; 104]%Z.
Proof. reflexivity. Qed.

Example parse_two_records :
  parse_binary [0; 0; 3; 0; 0; 0; 97; 46; 104; 1; 1; 0; 0; 0; 111]%Z = Parsed ["a.h"].
Proof. reflexivity. Qed.

Example parse_truncated :
  parse_binary [0; 0; 3; 0; 0; 0; 97]%Z = DependencyInfoParseError "truncated record".
Proof. reflexivity. Qed.

Example parse_make :
  parse_makefile (bytes_of_string ("a.o: a.c \" ++ String nl "  a.h" ++ String nl ""))
  = Parsed ["a.c"; "a.h"].
Proof. reflexivity. Qed.

Lemma length_bytes_of_string (s : string) :
  List.length (bytes_of_string s) = String.length s.
Proof.
  unfold bytes_of_string. rewrite length_map.
  induction s as [|a s IH]; simpl; [reflexivity | rewrite IH; reflexivity].
Qed.

Lemma string_of_bytes_of_string (s : string) : string_of_bytes (bytes_of_string s) = s.
Proof.
  unfold string_of_bytes, bytes_of_string. rewrite map_map.
  erewrite map_ext; [rewrite map_id; apply string_of_list_ascii_of_string|].
  intros a. unfold ascii_of_byte, byte_of_ascii. rewrite Nat2Z.id. apply ascii_nat_embedding.
Qed.

Lemma le32_roundtrip (n : Z) :
  (0 <= n < 2 ^ 32)%Z ->
  le32 (n mod 256) ((n / 256) mod 256) ((n / 65536) mod 256) ((n / 16777216) mod 256) = n.
Proof.
  intros Hn. unfold le32.
  assert (E2 : (n / 65536 = n / 256 / 256)%Z) by (rewrite Z.div_div by lia; reflexivity).
  assert (E3 : (n / 16777216 = n / 256 / 256 / 256)%Z) by (rewrite !Z.div_div by lia; reflexivity).
  rewrite E2, E3.
  assert (Hb : (0 <= n / 256 / 256 / 256 < 256)%Z).
  { rewrite <- E3. split; [apply Z.div_pos; lia|]. apply Z.div_lt_upper_bound; lia. }
  rewrite (Z.mod_small (n / 256 / 256 / 256)) by exact Hb.
  pose proof (Z.div_mod n 256) as H1.
  pose proof (Z.div_mod (n / 256) 256) as H2.
  pose proof (Z.div_mod (n / 256 / 256) 256) as H3.
  lia.
Qed.

(** A record the encoder can write: a known tag and a path shorter
    than [2^32] bytes. *)
Definition valid_record (r : Z * string) : bool :=
  (Z.eqb (fst r) 0 || Z.eqb (fst r) 1 || Z.eqb (fst r) 2) && encodable (snd r).

Definition encode_records (rs : list (Z * string)) : list Z :=
  concat (map (fun r => encode_record (fst r) (snd r)) rs).

Definition record_inputs (rs : list (Z * string)) : list string :=
  map snd (filter (fun r => Z.eqb (fst r) 0) rs).

Lemma encode_record_split (t : Z) (p : string) :
  encode_record t p =
  (t :: (Z.of_nat (String.length p) mod 256)%Z
     :: ((Z.of_nat (String.length p) / 256) mod 256)%Z
     :: ((Z.of_nat (String.length p) / 65536) mod 256)%Z
     :: ((Z.of_nat (String.length p) / 16777216) mod 256)%Z
     :: bytes_of_string p)%list.
Proof. reflexivity. Qed.

Lemma encode_records_cons (r : Z * string) (rs : list (Z * string)) :
  encode_records (r :: rs) = (encode_record (fst r) (snd r) ++ encode_records rs)%list.
Proof. reflexivity. Qed.

Lemma length_encode_record (t : Z) (p : string) :
  List.length (encode_record t p) = 5 + String.length p.
Proof.
  rewrite encode_record_split. simpl. rewrite length_bytes_of_string. reflexivity.
Qed.

Lemma length_encode_records (rs : list (Z * string)) :
  List.length rs <= List.length (encode_records rs).
Proof.
  induction rs as [|r rs IH]; [simpl; lia|].
  rewrite encode_records_cons, length_app, length_encode_record. simpl. lia.
Qed.

(** One encoded record at the front parses as that record. *)
Lemma binary_records_record (fuel : nat) (t : Z) (p : string) (tail : list Z) :
  valid_record (t, p) = true ->
  binary_records (S fuel) (encode_record t p ++ tail)%list =
  match binary_records fuel tail with
  | DependencyInfoParseError m => DependencyInfoParseError m
  | Parsed ins => Parsed (if Z.eqb t 0 then p :: ins else ins)
  end.
Proof.
  intros Hv. unfold valid_record in Hv. simpl in Hv.
  apply andb_true_iff in Hv as [Ht He].
  unfold encodable in He. apply Z.ltb_lt in He.
  rewrite encode_record_split. cbn [app binary_records].
  rewrite le32_roundtrip by lia. rewrite Nat2Z.id.
  rewrite length_app, length_bytes_of_string.
  destruct (Nat.ltb_spec (String.length p + List.length tail) (String.length p)); [lia|].
  rewrite <- (length_bytes_of_string p).
  rewrite firstn_app, Nat.sub_diag, firstn_all, firstn_O, app_nil_r.
  rewrite skipn_app, Nat.sub_diag, skipn_all, skipn_O. simpl.
  rewrite string_of_bytes_of_string.
  destruct (binary_records fuel tail) as [ins | m]; [|reflexivity].
  destruct (Z.eqb t 0) eqn:E0; [reflexivity|].
  destruct (Z.eqb t 1) eqn:E1; [reflexivity|].
  destruct (Z.eqb t 2) eqn:E2; [reflexivity|].
  simpl in Ht. rewrite ?E0, ?E1, ?E2 in Ht. discriminate Ht.
Qed.

Lemma binary_records_app (rs : list (Z * string)) (fuel : nat) (tail : list Z) :
  forallb valid_record rs = true ->
  binary_records (List.length rs + fuel) (encode_records rs ++ tail)%list =
  match binary_records fuel tail with
  | DependencyInfoParseError m => DependencyInfoParseError m
  | Parsed ins => Parsed (record_inputs rs ++ ins)%list
  end.
Proof.
  revert fuel tail. induction rs as [|[t p] rs IH]; intros fuel tail Hv.
  - simpl. destruct (binary_records fuel tail); reflexivity.
  - simpl in Hv. apply andb_true_iff in Hv as [Hr Hv].
    rewrite encode_records_cons, <- app_assoc. simpl (List.length _ + fuel).
    rewrite (binary_records_record _ t p _ Hr). rewrite (IH fuel tail Hv).
    destruct (binary_records fuel tail) as [ins | m]; [|reflexivity].
    unfold record_inputs. simpl. destruct (Z.eqb t 0); reflexivity.
Qed.

Lemma binary_records_nil (fuel : nat) : binary_records (S fuel) [] = Parsed [].
Proof. reflexivity. Qed.

Lemma encode_binary_records (paths : list string) :
  concat (map (encode_record 0) paths) = encode_records (map (fun p => (0%Z, p)) paths).
Proof. unfold encode_records. rewrite map_map. reflexivity. Qed.

Lemma record_inputs_inputs (paths : list string) :
  record_inputs (map (fun p => (0%Z, p)) paths) = paths.
Proof.
  unfold record_inputs. induction paths as [|p ps IH]; [reflexivity|].
  simpl. rewrite IH. reflexivity.
Qed.

Lemma valid_inputs (paths : list string) :
  forallb encodable paths = true -> forallb valid_record (map (fun p => (0%Z, p)) paths) = true.
Proof.
  induction paths as [|p ps IH]; [reflexivity|].
  cbn [forallb map]. intros H. apply andb_true_iff in H as [Hp Hps].
  apply andb_true_iff. split; [|exact (IH Hps)].
  unfold valid_record. cbn [fst snd]. rewrite Hp. reflexivity.
Qed.

(** Records followed by [tail], with enough fuel. *)
Lemma binary_records_prefix (rs : list (Z * string)) (tail : list Z) (fuel : nat) :
  forallb valid_record rs = true ->
  List.length rs < fuel ->
  binary_records fuel (encode_records rs ++ tail)%list =
  match binary_records (fuel - List.length rs) tail with
  | DependencyInfoParseError m => DependencyInfoParseError m
  | Parsed ins => Parsed (record_inputs rs ++ ins)%list
  end.
Proof.
  intros Hv Hf.
  replace fuel with (List.length rs + (fuel - List.length rs)) at 1 by lia.
  apply binary_records_app. exact Hv.
Qed.

(** C6: encoding a list of paths in the binary dependency-info format
    (each path an input record; the encoder succeeds when every path is
    shorter than [2^32] bytes) and parsing the file gives back exactly
    those paths. *)
Theorem binary_roundtrip (version : Z) (paths : list string) (bytes : list Z)
    (fs : FS) (path : string) :
  encode_binary version paths = Some bytes ->
  lookup fs path = Some (File bytes) ->
  Parse fs Binary path = Parsed paths.
Proof.
  unfold encode_binary. destruct (forallb encodable paths) eqn:He; [|discriminate].
  intros Henc Hl. injection Henc as <-.
  unfold Parse. rewrite Hl. unfold parse_binary.
  rewrite encode_binary_records.
  rewrite <- (app_nil_r (encode_records _)).
  pose proof (length_encode_records (map (fun p => (0%Z, p)) paths)) as Hlen.
  rewrite (binary_records_prefix _ [] _ (valid_inputs paths He)) by (rewrite app_nil_r; lia).
  rewrite app_nil_r.
  replace (S (List.length (encode_records (map (fun p => (0%Z, p)) paths)))
           - List.length (map (fun p => (0%Z, p)) paths))
    with (S (List.length (encode_records (map (fun p => (0%Z, p)) paths))
           - List.length (map (fun p => (0%Z, p)) paths))) by lia.
  rewrite binary_records_nil, app_nil_r, record_inputs_inputs. reflexivity.
Qed.

Lemma binary_roundtrip_witness :
  Parse [("deps.dat", File [0; 0; 3; 0; 0; 0; 97; 46; 104; 0; 3; 0; 0; 0; 98; 46; 104]%Z)]
    Binary "deps.dat" = Parsed ["a.h"; "b.h"].
Proof.
  apply (binary_roundtrip 0 ["a.h"; "b.h"]
           [0; 0; 3; 0; 0; 0; 97; 46; 104; 0; 3; 0; 0; 0; 98; 46; 104]%Z); reflexivity.
Defined.

(** A record cut short anywhere after its first byte is refused. *)
Lemma truncated_record_error (fuel : nat) (t : Z) (p : string) (k : nat) :
  valid_record (t, p) = true ->
  0 < k < List.length (encode_record t p) ->
  exists m, binary_records (S fuel) (firstn k (encode_record t p)) = DependencyInfoParseError m.
Proof.
  intros Hv Hk. unfold valid_record in Hv. simpl in Hv.
  apply andb_true_iff in Hv as [_ He]. unfold encodable in He. apply Z.ltb_lt in He.
  rewrite length_encode_record in Hk.
  rewrite encode_record_split.
  destruct k as [|[|[|[|[|k]]]]]; try lia; try (eexists; reflexivity).
  cbn [firstn binary_records].
  rewrite le32_roundtrip by lia. rewrite Nat2Z.id.
  rewrite length_firstn, length_bytes_of_string.
  destruct (Nat.ltb_spec (Nat.min k (String.length p)) (String.length p)).
  - eexists; reflexivity.
  - lia.
Qed.

(** C5: [Parse] returns the empty discovered set when the file is
    absent, in either format; a binary file whose last record is cut
    short after any number of its bytes (well-formed records before it)
    is a [DependencyInfoParseError]; so is a non-empty Make-rule file
    whose last byte is not a newline. *)
Theorem Parse_absent_or_malformed :
  (forall (fs : FS) (format : DependencyInfoFormat) (path : string),
     lookup fs path = None -> Parse fs format path = Parsed []) /\
  (forall (fs : FS) (path : string) (version : Z) (rs : list (Z * string))
          (t : Z) (p : string) (k : nat),
     lookup fs path = Some (File (version :: encode_records rs ++ firstn k (encode_record t p))%list) ->
     forallb valid_record rs = true -> valid_record (t, p) = true ->
     0 < k < List.length (encode_record t p) ->
     exists m, Parse fs Binary path = DependencyInfoParseError m) /\
  (forall (fs : FS) (path : string) (bytes : list Z),
     lookup fs path = Some (File bytes) ->
     Forall (fun b => 0 <= b < 256)%Z bytes ->
     bytes <> [] -> last bytes 0%Z <> 10%Z ->
     exists m, Parse fs Makefile path = DependencyInfoParseError m).
Proof.
  split; [|split].
  - intros fs format path Hl. unfold Parse. rewrite Hl. reflexivity.
  - intros fs path version rs t p k Hl Hrs Hr Hk.
    unfold Parse. rewrite Hl. unfold parse_binary.
    pose proof (length_encode_records rs) as Hlen.
    rewrite binary_records_prefix by (exact Hrs || (rewrite length_app; lia)).
    rewrite length_app, length_firstn.
    replace (S (List.length (encode_records rs) + Nat.min k (List.length (encode_record t p)))
             - List.length rs)
      with (S (List.length (encode_records rs) + Nat.min k (List.length (encode_record t p))
             - List.length rs)) by lia.
    destruct (truncated_record_error
                (List.length (encode_records rs) + Nat.min k (List.length (encode_record t p))
                 - List.length rs) t p k Hr Hk) as [m Hm].
    rewrite Hm. exists m. reflexivity.
  - intros fs path bytes Hl Hrange Hne Hlast.
    unfold Parse. rewrite Hl. unfold parse_makefile.
    destruct (exists_last Hne) as [init [l ->]].
    rewrite last_last in Hlast.
    rewrite map_app, rev_app_distr. simpl.
    assert (Hl' : Ascii.eqb (ascii_of_byte l) nl = false).
    { apply Forall_app in Hrange as [_ Hrange]. inversion Hrange as [|x xs Hb _]; subst.
      destruct (Ascii.eqb_spec (ascii_of_byte l) nl) as [E|E]; [|reflexivity].
      exfalso. apply Hlast. unfold ascii_of_byte, nl in E.
      apply (f_equal nat_of_ascii) in E.
      assert (Hn : (Z.to_nat l < 256)%nat) by (apply Nat2Z.inj_lt; rewrite Z2Nat.id; lia).
      rewrite (nat_ascii_embedding _ Hn) in E. change (nat_of_ascii "010"%char) with 10%nat in E.
      rewrite <- (Z2Nat.id l) by lia. rewrite E. reflexivity. }
    rewrite Hl'. eexists. reflexivity.
Qed.

Lemma Parse_absent_or_malformed_witness :
  Parse [("deps.dat", File [0; 0; 3; 0]%Z)] Binary "deps.dat"
    = DependencyInfoParseError "truncated record header" /\
  Parse [] Makefile "deps.d" = Parsed [].
Proof.
  split; [reflexivity|].
  apply (proj1 Parse_absent_or_malformed). reflexivity.
Defined.

End DependencyInfoFacts.

Module StalenessFacts.

Import Invocation Staleness.

Local Open Scope Z_scope.

Lemma option_eqb_refl {A} (eqb : A -> A -> bool) (x : option A) :
  (forall a, eqb a a = true) -> option_eqb eqb x x = true.
Proof. intros H. destruct x; simpl; auto. Qed.

Lemma list_eqb_refl {A} (eqb : A -> A -> bool) (xs : list A) :
  (forall a, eqb a a = true) -> list_eqb eqb xs xs = true.
Proof. intros H. induction xs as [|x xs IH]; simpl; [reflexivity|]. rewrite H, IH. reflexivity. Qed.

Lemma description_eqb_refl (d : Description) : description_eqb d d = true.
Proof.
  destruct d as [e a env w]. unfold description_eqb; cbn [d_executable d_arguments d_environment d_workingDirectory].
  rewrite (option_eqb_refl executable_eqb).
  - rewrite (list_eqb_refl String.eqb) by apply String.eqb_refl.
    rewrite (list_eqb_refl pair_eqb).
    + rewrite String.eqb_refl. reflexivity.
    + intros [x y]. unfold pair_eqb. simpl. rewrite !String.eqb_refl. reflexivity.
  - intros [x y]. unfold executable_eqb. simpl.
    rewrite !(option_eqb_refl String.eqb) by apply String.eqb_refl. reflexivity.
Qed.

Lemma oldest_some (mt : MTimes) (outs : list string) (m : Z) :
  oldest mt outs = Some m -> exists o, In o outs /\ mt o = Some m.
Proof.
  revert m. induction outs as [|o rest IH]; simpl; intros m H; [discriminate|].
  destruct (mt o) as [t|] eqn:Ho; destruct (oldest mt rest) as [u|] eqn:Hr.
  - injection H as <-. destruct (Z.min_spec t u) as [[_ ->]|[_ ->]].
    + exists o. auto.
    + destruct (IH u eq_refl) as [o' [Hi Ht]]. exists o'. auto.
  - injection H as <-. exists o. auto.
  - destruct (IH m H) as [o' [Hi Ht]]. exists o'. auto.
  - discriminate.
Qed.

Lemma none_newer (mt : MTimes) (outs ps : list string) :
  (forall p t o to, In p ps -> mt p = Some t -> In o outs -> mt o = Some to -> t <= to) ->
  existsb (newer mt (oldest mt outs)) ps = false.
Proof.
  intros H. apply Bool.not_true_iff_false. intros Hx.
  apply existsb_exists in Hx as [p [Hp Hn]]. unfold newer in Hn.
  destruct (mt p) as [t|] eqn:Ht; [|discriminate].
  destruct (oldest mt outs) as [l|] eqn:Hl; [|discriminate].
  apply Z.ltb_lt in Hn. destruct (oldest_some mt outs l Hl) as [o [Ho Hto]].
  specialize (H p t o l Hp Ht Ho Hto). lia.
Qed.

Lemma outputs_present (mt : MTimes) (outs : list string) :
  (forall o, In o outs -> mt o <> None) ->
  existsb (fun o => match mt o with None => true | Some _ => false end) outs = false.
Proof.
  intros H. apply Bool.not_true_iff_false. intros Hx.
  apply existsb_exists in Hx as [o [Ho Hm]].
  destruct (mt o) eqn:E; [discriminate|]. exact (H o Ho E).
Qed.

Definition example_invocation : Invocation :=
  mkInvocation (Some (Executable.External "cc")) ["-c"; "a.c"] [] "/src"
    ["a.c"] ["a.o"] ["gen.h"] [] [] [] [] "" false false.

Definition example_prior : PriorState :=
  [(["a.o"], mkRecorded (description example_invocation) ["a.h"])].

Definition example_mtimes : MTimes := fun p =>
  if String.eqb p "a.c" then Some 5
  else if String.eqb p "a.h" then Some 4
  else if String.eqb p "a.o" then Some 10
  else if String.eqb p "gen.h" then Some 20
  else None.

(** C1 (as stated): the claim's conditions (outputs present, inputs,
    inputDependencies and discovered inputs not newer than the oldest
    output, matching description) do not make [IsStale] false; a
    phony input present on disk and newer than the output still makes the
    invocation stale. *)
Lemma IsStale_phony_counterexample :
  ~ (forall (mt : MTimes) (i : Invocation) (prior : PriorState) (r : Recorded),
       (forall o, In o (outputs i) -> mt o <> None) ->
       (forall p t o to, In p (inputs i ++ inputDependencies i ++ r_discovered r)%list ->
          mt p = Some t -> In o (outputs i) -> mt o = Some to -> t <= to) ->
       find_record prior (outputs i) = Some r ->
       description i = r_description r ->
       IsStale mt i prior = false).
Proof.
  intros H.
  assert (Hs : IsStale example_mtimes example_invocation example_prior = true) by reflexivity.
  rewrite (H example_mtimes example_invocation example_prior
             (mkRecorded (description example_invocation) ["a.h"])) in Hs.
  - discriminate.
  - intros o Ho. simpl in Ho. destruct Ho as [<-|[]]. discriminate.
  - intros p t o to Hp Ht Ho Hto. simpl in Ho. destruct Ho as [<-|[]].
    cbv in Hto. injection Hto as <-.
    simpl in Hp. destruct Hp as [<-|[<-|[]]]; cbv in Ht; injection Ht as <-; lia.
  - reflexivity.
  - reflexivity.
Qed.

(** C1 (amended): for every invocation whose outputs all exist, whose
    inputs, inputDependencies entries, discovered dependency-info inputs
    and phonyInputs present on disk are none newer than any output, and
    whose recorded description (executable, arguments, environment,
    working directory) for its output set matches the current one,
    [IsStale] is false; a scheduler pass over such invocations executes
    none of them. *)
Theorem IsStale_up_to_date (mt : MTimes) (prior : PriorState) (invs : list Invocation) :
  (forall i, In i invs ->
     exists r,
       find_record prior (outputs i) = Some r /\
       description i = r_description r /\
       (forall o, In o (outputs i) -> mt o <> None) /\
       (forall p t o to,
          In p (inputs i ++ inputDependencies i ++ r_discovered r ++ phonyInputs i)%list ->
          mt p = Some t -> In o (outputs i) -> mt o = Some to -> t <= to)) ->
  (forall i, In i invs -> IsStale mt i prior = false) /\ executed mt invs prior = [].
Proof.
  intros Hall.
  assert (Hi : forall i, In i invs -> IsStale mt i prior = false).
  { intros i Hin. destruct (Hall i Hin) as [r [Hf [Hd [Ho Hn]]]].
    unfold IsStale. rewrite (outputs_present mt _ Ho). rewrite Hf.
    rewrite (none_newer mt _ _ Hn). rewrite Hd, description_eqb_refl. reflexivity. }
  split; [exact Hi|].
  unfold executed. induction invs as [|j js IH]; [reflexivity|].
  simpl. rewrite (Hi j (or_introl eq_refl)). apply IH.
  - intros i Hin. apply Hall. right. exact Hin.
  - intros i Hin. apply Hi. right. exact Hin.
Qed.

Definition example_mtimes_fresh : MTimes := fun p =>
  if String.eqb p "gen.h" then None else example_mtimes p.

Lemma IsStale_up_to_date_witness :
  executed example_mtimes_fresh [example_invocation] example_prior = [].
Proof.
  apply (IsStale_up_to_date example_mtimes_fresh example_prior [example_invocation]).
  intros i [<-|[]]. exists (mkRecorded (description example_invocation) ["a.h"]).
  split; [reflexivity|]. split; [reflexivity|]. split.
  - intros o [<-|[]]. discriminate.
  - intros p t o to Hp Ht [<-|[]] Hto. cbv in Hto. injection Hto as <-.
    simpl in Hp. destruct Hp as [<-|[<-|[<-|[]]]]; cbv in Ht; try discriminate;
      injection Ht as <-; lia.
Defined.

End StalenessFacts.

Module EnvironmentFacts.

Import DefaultContext DefaultContextEnv.

Lemma accessor_value {V} (compute : Process -> option V) (pr : Process) (c c' : Cache V)
    (k : nat) (v : V) :
  accessor compute pr c = Some (c', (k, v)) -> compute pr = Some v.
Proof.
  unfold accessor, call_once. simpl. destruct (compute pr) as [v0|]; [|discriminate].
  simpl. rewrite nth_error_app2 by lia. rewrite Nat.sub_diag. simpl.
  intros H. injection H as _ _ <-. reflexivity.
Qed.

Lemma assoc_app (k : string) (m1 m2 : list (string * string)) :
  assoc k (m1 ++ m2)%list = match assoc k m1 with Some v => Some v | None => assoc k m2 end.
Proof.
  induction m1 as [|[k' v] m1 IH]; [reflexivity|].
  simpl. destruct (String.eqb k k'); [reflexivity | exact IH].
Qed.

Lemma assoc_map_insert (name k v : string) (m : list (string * string)) :
  assoc name (map_insert (k, v) m) =
  match assoc name m with
  | Some x => Some x
  | None => if String.eqb name k then Some v else None
  end.
Proof.
  unfold map_insert. simpl. destruct (assoc k m) as [x|] eqn:Ek.
  - destruct (assoc name m) eqn:En; [reflexivity|].
    destruct (String.eqb_spec name k) as [->|]; [congruence | reflexivity].
  - rewrite assoc_app. destruct (assoc name m); [reflexivity|]. simpl.
    destruct (String.eqb name k); reflexivity.
Qed.

(** The name a line of [environ] is filed under, and its value. *)
Definition key (e : string) : string := fst (split_entry e).

Lemma snapshot_assoc (name : string) (env : list string) (m0 : list (string * string)) :
  assoc name (fold_left (fun m e => map_insert (split_entry e) m) env m0) =
  match assoc name m0 with
  | Some v => Some v
  | None => option_map (fun e => snd (split_entry e))
              (find (fun e => String.eqb (key e) name) env)
  end.
Proof.
  revert m0. induction env as [|e env IH]; intros m0.
  - simpl. destruct (assoc name m0); reflexivity.
  - simpl. rewrite IH. destruct (split_entry e) as [k v] eqn:Es.
    rewrite assoc_map_insert. unfold key. rewrite Es. simpl.
    destruct (assoc name m0); [reflexivity|].
    destruct (String.eqb_spec name k) as [->|Hnk].
    + rewrite String.eqb_refl. simpl. rewrite Es. reflexivity.
    + rewrite (proj2 (String.eqb_neq k name)) by congruence. reflexivity.
Qed.

Lemma prefix_substring (name e : string) :
  String.prefix name e = true -> substring 0 (String.length name) e = name.
Proof.
  revert e. induction name as [|a name IH]; intros e H.
  - destruct e; reflexivity.
  - destruct e as [|b e]; [discriminate|]. simpl in H.
    destruct (ascii_dec a b) as [<-|]; [|discriminate].
    simpl. rewrite (IH e H). reflexivity.
Qed.

Lemma match_find (name e : string) :
  find_char "="%char name = None -> String.prefix name e = true ->
  String.get (String.length name) e = Some "="%char ->
  find_char "="%char e = Some (String.length name).
Proof.
  revert e. induction name as [|a name IH]; intros e Hn Hp Hg.
  - destruct e as [|b e]; [discriminate|]. simpl in Hg. injection Hg as ->. reflexivity.
  - destruct e as [|b e]; [discriminate|]. simpl in Hn, Hp, Hg.
    destruct (Ascii.eqb a "="%char) eqn:Ea; [discriminate|].
    destruct (find_char "="%char name) eqn:Ef; [discriminate|].
    destruct (ascii_dec a b) as [<-|]; [|discriminate].
    simpl. rewrite Ea. rewrite (IH e eq_refl Hp Hg). reflexivity.
Qed.

Lemma find_prefix (e : string) (off : nat) :
  find_char "="%char e = Some off ->
  String.prefix (substring 0 off e) e = true /\
  String.get (String.length (substring 0 off e)) e = Some "="%char.
Proof.
  revert off. induction e as [|b e IH]; intros off H; [discriminate|].
  simpl in H. destruct (Ascii.eqb_spec b "="%char) as [->|Hb].
  - injection H as <-. split; reflexivity.
  - destruct (find_char "="%char e) as [off'|] eqn:Ef; [|discriminate].
    simpl in H. injection H as <-.
    destruct (IH off' eq_refl) as [Hp Hg]. simpl.
    destruct (ascii_dec b b) as [_|]; [|congruence]. split; assumption.
Qed.

(** What [getenv] tests of an entry. *)
Definition getenv_match (name e : string) : bool :=
  String.prefix name e &&
  match String.get (String.length name) e with
  | Some a => Ascii.eqb a "="%char
  | None => false
  end.

Lemma getenv_match_key (name e : string) :
  find_char "="%char name = None -> e <> name ->
  getenv_match name e = String.eqb (key e) name /\
  (getenv_match name e = true ->
     snd (split_entry e) = substring (S (String.length name)) (String.length e) e).
Proof.
  intros Hn Hne. unfold getenv_match, key, split_entry.
  destruct (find_char "="%char e) as [off|] eqn:Ef.
  - simpl. destruct (String.prefix name e) eqn:Hp.
    + destruct (String.get (String.length name) e) as [a|] eqn:Hg.
      * destruct (Ascii.eqb_spec a "="%char) as [->|Ha].
        -- pose proof (match_find name e Hn Hp Hg) as Hf. rewrite Ef in Hf. injection Hf as ->.
           rewrite (prefix_substring name e Hp), String.eqb_refl.
           split; [reflexivity | intros _; reflexivity].
        -- split; [|discriminate].
           symmetry. apply String.eqb_neq. intros Hs.
           destruct (find_prefix e off Ef) as [_ Hg']. rewrite Hs, Hg in Hg'. congruence.
      * split; [|discriminate]. symmetry. apply String.eqb_neq. intros Hs.
        destruct (find_prefix e off Ef) as [_ Hg']. rewrite Hs, Hg in Hg'. discriminate.
    + split; [|discriminate]. symmetry. apply String.eqb_neq. intros Hs.
      destruct (find_prefix e off Ef) as [Hp' _]. rewrite Hs, Hp in Hp'. discriminate.
  - simpl. assert (Hk : String.eqb e name = false) by (apply String.eqb_neq; exact Hne).
    rewrite Hk.
    assert (Hm0 : (String.prefix name e &&
                   match String.get (String.length name) e with
                   | Some a => Ascii.eqb a "="%char
                   | None => false
                   end) = false).
    { destruct (String.prefix name e) eqn:Hp; [|reflexivity].
      destruct (String.get (String.length name) e) as [a|] eqn:Hg; [|reflexivity].
      destruct (Ascii.eqb_spec a "="%char) as [->|]; [|reflexivity].
      rewrite (match_find name e Hn Hp Hg) in Ef. discriminate. }
    split; [exact Hm0 | intros Hm; rewrite Hm0 in Hm; discriminate].
Qed.

Lemma getenv_scan_find (name : string) (env : list string) :
  find_char "="%char name = None -> ~ In name env ->
  getenv_scan name env =
  option_map (fun e => snd (split_entry e)) (find (fun e => String.eqb (key e) name) env).
Proof.
  intros Hn. induction env as [|e env IH]; intros Hin; [reflexivity|].
  assert (Hne : e <> name) by (intros ->; apply Hin; left; reflexivity).
  destruct (getenv_match_key name e Hn Hne) as [Hk Hv].
  simpl. fold (getenv_match name e). rewrite <- Hk.
  destruct (getenv_match name e) eqn:Hm.
  - simpl. rewrite (Hv eq_refl). reflexivity.
  - apply IH. intros Hi. apply Hin. right. exact Hi.
Qed.

(** [environmentVariables()] files each name of [environ] under the value
    of the first entry with that name; a later duplicate is ignored
    ([unordered_map::insert] keeps an existing binding), and an entry
    with no ['='] is filed under its whole text with its whole text as
    value ([npos + 1] wraps to [0]). *)
Theorem environmentVariables_first_entry (pr : Process) (c c' : Cache (list (string * string)))
    (k : nat) (m : list (string * string)) :
  environmentVariables pr c = Some (c', (k, m)) ->
  (forall name, assoc name m =
     option_map (fun e => snd (split_entry e)) (find (fun e => String.eqb (key e) name) (environ pr))) /\
  (forall e, find_char "="%char e = None -> key e = e /\ snd (split_entry e) = e).
Proof.
  intros H. apply accessor_value in H. unfold environment_snapshot in H.
  injection H as <-. split.
  - intros name. rewrite snapshot_assoc. reflexivity.
  - intros e He. unfold key, split_entry. rewrite He. split; reflexivity.
Qed.

Lemma environmentVariables_first_entry_witness :
  environmentVariables (mkProcess "/" ["A=1"; "A=2"; "B"] "x" "/") empty_cache
    = Some (mkCache (Some 0) [[("A", "1"); ("B", "B")]] 1, (0, [("A", "1"); ("B", "B")])) /\
  assoc "A" [("A", "1"); ("B", "B")] = Some "1".
Proof.
  split; [reflexivity|].
  apply (environmentVariables_first_entry (mkProcess "/" ["A=1"; "A=2"; "B"] "x" "/")
           empty_cache (mkCache (Some 0) [[("A", "1"); ("B", "B")]] 1) 0);
    reflexivity.
Defined.

(** [environmentVariable(name)] ([getenv]) and the snapshot of
    [environmentVariables()] agree on every non-empty name with no ['=']
    and no NUL, unless [environ] holds the bare name as an entry of its
    own, with no ['=']. *)
Theorem environmentVariable_agrees (pr : Process) (c c' : Cache (list (string * string)))
    (k : nat) (m : list (string * string)) (name : string) :
  environmentVariables pr c = Some (c', (k, m)) ->
  name <> "" -> find_char "="%char name = None -> c_str name = name ->
  ~ In name (environ pr) ->
  environmentVariable pr name = assoc name m.
Proof.
  intros H Hne Hn Hc Hin. apply accessor_value in H. unfold environment_snapshot in H.
  injection H as <-. rewrite snapshot_assoc. simpl.
  unfold environmentVariable, getenv. rewrite Hc.
  destruct (String.eqb_spec name "") as [->|_]; [congruence|].
  apply getenv_scan_find; assumption.
Qed.

Lemma environmentVariable_agrees_witness :
  environmentVariable (mkProcess "/" ["A=1"; "PATH=/bin"; "A=2"] "x" "/") "A" = Some "1".
Proof.
  apply (environmentVariable_agrees (mkProcess "/" ["A=1"; "PATH=/bin"; "A=2"] "x" "/")
           empty_cache (mkCache (Some 0) [[("A", "1"); ("PATH", "/bin")]] 1) 0
           [("A", "1"); ("PATH", "/bin")] "A").
  - reflexivity.
  - discriminate.
  - reflexivity.
  - reflexivity.
  - simpl. intros [H|[H|[H|[]]]]; discriminate H.
Defined.

Lemma find_skip (name : string) (pre rest : list string) :
  Forall (fun e => String.eqb (key e) name = false) pre ->
  find (fun e => String.eqb (key e) name) (pre ++ rest)%list =
  find (fun e => String.eqb (key e) name) rest.
Proof.
  induction 1 as [|e pre He _ IH]; [reflexivity|]. simpl. rewrite He. exact IH.
Qed.

Lemma scan_skip (name : string) (pre rest : list string) :
  find_char "="%char name = None ->
  Forall (fun e => String.eqb (key e) name = false) pre ->
  getenv_scan name (pre ++ rest)%list = getenv_scan name rest.
Proof.
  intros Hn. induction 1 as [|e pre He _ IH]; [reflexivity|].
  assert (Hne : e <> name).
  { intros ->. unfold key, split_entry in He. rewrite Hn in He. simpl in He.
    rewrite String.eqb_refl in He. discriminate. }
  destruct (getenv_match_key name e Hn Hne) as [Hk _].
  simpl. fold (getenv_match name e). rewrite Hk, He. exact IH.
Qed.

Lemma get_length (s : string) : String.get (String.length s) s = None.
Proof. induction s as [|a s IH]; [reflexivity | exact IH]. Qed.

Lemma prefix_refl (s : string) : String.prefix s s = true.
Proof.
  induction s as [|a s IH]; [reflexivity|]. simpl.
  destruct (ascii_dec a a); [exact IH | congruence].
Qed.

(** Where they differ: an entry [name] with no ['='] that comes before
    any [name=...] entry is reported by [environmentVariables()] as
    [name] with value [name], while [getenv] skips it and returns what
    the later entries give. *)
Theorem bare_entry_divergence (pr : Process) (c c' : Cache (list (string * string)))
    (k : nat) (m : list (string * string)) (name : string) (pre post : list string) :
  environmentVariables pr c = Some (c', (k, m)) ->
  environ pr = (pre ++ name :: post)%list ->
  name <> "" -> find_char "="%char name = None -> c_str name = name ->
  Forall (fun e => String.eqb (key e) name = false) pre ->
  assoc name m = Some name /\ environmentVariable pr name = getenv_scan name post.
Proof.
  intros H He Hne Hn Hc Hpre. apply accessor_value in H. unfold environment_snapshot in H.
  injection H as <-. rewrite snapshot_assoc. simpl.
  unfold environmentVariable, getenv. rewrite Hc, He.
  split.
  - rewrite find_skip by exact Hpre. simpl.
    unfold key, split_entry. rewrite Hn. simpl. rewrite String.eqb_refl. simpl.
    rewrite Hn. reflexivity.
  - destruct (String.eqb_spec name "") as [->|_]; [congruence|].
    rewrite scan_skip by assumption. simpl.
    rewrite prefix_refl, get_length. reflexivity.
Qed.

Lemma bare_entry_divergence_witness :
  environmentVariables (mkProcess "/" ["B=0"; "A"; "A=2"] "x" "/") empty_cache
    = Some (mkCache (Some 0) [[("B", "0"); ("A", "A")]] 1, (0, [("B", "0"); ("A", "A")])) /\
  assoc "A" [("B", "0"); ("A", "A")] = Some "A" /\
  environmentVariable (mkProcess "/" ["B=0"; "A"; "A=2"] "x" "/") "A" = getenv_scan "A" ["A=2"].
Proof.
  split; [reflexivity|].
  apply (bare_entry_divergence (mkProcess "/" ["B=0"; "A"; "A=2"] "x" "/") empty_cache
           (mkCache (Some 0) [[("B", "0"); ("A", "A")]] 1) 0 [("B", "0"); ("A", "A")]
           "A" ["B=0"] ["A=2"]).
  - reflexivity.
  - reflexivity.
  - discriminate.
  - reflexivity.
  - reflexivity.
  - repeat constructor.
Defined.

End EnvironmentFacts.

Module FilesystemOpsFacts.

Import DefaultFilesystem FilesystemFacts DefaultFilesystemOps.





(** [createFile] leaves a path that [access(W_OK)] reports writable as
    it is and returns [true], a writable directory included (no file is
    created then). Otherwise it either returns [true] with the path now an
    empty file (created or truncated) and every other path unchanged, or
    returns [false] with nothing changed; it is the first whenever the
    path is not a directory and [fopen(path, "w")] may open it, and the
    second for a directory that is not writable. *)
Theorem createFile_effect (write_permitted fopen_w_allowed : FS -> string -> bool)
    (path : string) (fs fs' : FS) (ok : bool) :
  createFile write_permitted fopen_w_allowed path fs = (fs', ok) ->
  (isWritable write_permitted fs path = true -> fs' = fs /\ ok = true) /\
  (isWritable write_permitted fs path = false ->
     (ok = true /\ lookup fs' path = Some (File []) /\
      (forall q, q <> path -> lookup fs' q = lookup fs q)) \/
     (ok = false /\ fs' = fs)) /\
  (isWritable write_permitted fs path = false -> lookup fs path <> Some Dir ->
     fopen_w_allowed fs path = true -> ok = true) /\
  (isWritable write_permitted fs path = false -> lookup fs path = Some Dir ->
     ok = false).
Proof.
  unfold createFile. destruct (isWritable write_permitted fs path) eqn:Hw.
  - intros H. injection H as <- <-.
    repeat split; discriminate.
  - unfold fopen_w. destruct (lookup fs path) as [[b|]|] eqn:Hl.
    2: { intros H. injection H as <- <-.
         split; [discriminate|]. split; [intros _; right; auto|].
         split; [intros _ Hd; congruence | reflexivity]. }
    all: destruct (fopen_w_allowed fs path) eqn:Ha; intros H; injection H as <- <-;
      (split; [discriminate|]);
      [ split; [intros _; left; split; [reflexivity|];
                split; [apply lookup_update_eq|];
                intros q Hq; apply lookup_update_neq; exact Hq|];
        split; [reflexivity|]; intros _ Hd; discriminate
      | split; [intros _; right; auto|];
        split; [intros _ _ Hf; discriminate | intros _ Hd; discriminate] ].
Qed.

Lemma createFile_effect_witness :
  createFile (fun _ _ => false) (fun _ _ => true) "a.txt" [("/tmp", Dir)]
    = (update [("/tmp", Dir)] "a.txt" (File []), true) /\
  lookup (update [("/tmp", Dir)] "a.txt" (File [])) "a.txt" = Some (File []).
Proof.
  split; [reflexivity|].
  destruct (createFile_effect (fun _ _ => false) (fun _ _ => true) "a.txt" [("/tmp", Dir)]
              (update [("/tmp", Dir)] "a.txt" (File [])) true eq_refl)
    as [_ [H _]].
  destruct (H eq_refl) as [[_ [Hp _]] | [Hf _]]; [exact Hp | discriminate].
Defined.

Lemma lookup_remove (fs : FS) (p q : string) :
  lookup (remove fs p) q = if String.eqb q p then None else lookup fs q.
Proof.
  induction fs as [|[r n] fs IH]; simpl.
  - destruct (String.eqb q p); reflexivity.
  - destruct (String.eqb_spec p r) as [Epr|Hpr]; subst; simpl.
    + rewrite IH. destruct (String.eqb q r); reflexivity.
    + rewrite IH. destruct (String.eqb q r) eqn:Eqr; [|reflexivity].
      destruct (String.eqb q p) eqn:Eqp; [|reflexivity].
      apply String.eqb_eq in Eqr, Eqp. congruence.
Qed.

(** [removeFile] succeeds exactly when the path is a regular file and one
    of its two [unlink] attempts is allowed; the second attempt cannot
    help on a missing path or a directory. On success the path is gone
    and every other path is as before; on failure nothing changes. *)
Theorem removeFile_effect (first_ok second_ok : bool) (path : string) (fs fs' : FS) (ok : bool) :
  removeFile first_ok second_ok path fs = (fs', ok) ->
  (ok = true <-> (exists b, lookup fs path = Some (File b)) /\ (first_ok || second_ok) = true) /\
  (ok = true -> lookup fs' path = None /\ forall q, q <> path -> lookup fs' q = lookup fs q) /\
  (ok = false -> fs' = fs).
Proof.
  unfold removeFile, unlink.
  assert (Hgone : lookup (remove fs path) path = None /\
                  forall q, q <> path -> lookup (remove fs path) q = lookup fs q).
  { split.
    - rewrite lookup_remove, String.eqb_refl. reflexivity.
    - intros q Hq. rewrite lookup_remove. rewrite (proj2 (String.eqb_neq q path) Hq). reflexivity. }
  destruct (lookup fs path) as [[b|]|] eqn:Hl.
  - destruct first_ok, second_ok; simpl; intros H; injection H as <- <-.
    1-3: split; [split; [intros _; split; [exists b; reflexivity | reflexivity] | intros _; reflexivity]
                | split; [intros _; exact Hgone | discriminate]].
    split; [split; [discriminate | intros [_ Hc]; discriminate Hc] | split; [discriminate | reflexivity]].
  - intros H. injection H as <- <-.
    split; [split; [discriminate | intros [[b Hb] _]; discriminate Hb]|].
    split; [discriminate | reflexivity].
  - intros H. injection H as <- <-.
    split; [split; [discriminate | intros [[b Hb] _]; discriminate Hb]|].
    split; [discriminate | reflexivity].
Qed.

Lemma removeFile_effect_witness :
  removeFile false true "a" [("a", File [1]%Z); ("b", Dir)] = ([("b", Dir)], true) /\
  lookup [("b", Dir)] "a" = None.
Proof.
  split; [reflexivity|].
  apply (removeFile_effect false true "a" [("a", File [1]%Z); ("b", Dir)] [("b", Dir)] true);
    reflexivity.
Defined.

Lemma c_str_substring (t : string) (k : nat) :
  DefaultContextEnv.c_str (substring 0 k (DefaultContextEnv.c_str t)) =
  substring 0 k (DefaultContextEnv.c_str t).
Proof.
  revert k. induction t as [|a t IH]; intros k.
  - destruct k; reflexivity.
  - simpl. destruct (Ascii.eqb a "000"%char) eqn:Ea.
    + destruct k; reflexivity.
    + destruct k; [reflexivity|]. simpl. rewrite Ea. rewrite IH. reflexivity.
Qed.

Lemma substring_all (s : string) (k : nat) :
  String.length s <= k -> substring 0 k s = s.
Proof.
  revert k. induction s as [|a s IH]; intros k Hk.
  - destruct k; reflexivity.
  - destruct k; simpl in Hk; [lia|]. simpl. rewrite IH by lia. reflexivity.
Qed.

(** A symbolic link written by [writeSymbolicLink] reads back, through
    [readSymbolicLink], exactly as its target (up to a NUL byte). The call
    succeeds only on a path that did not exist, with a non-empty target
    shorter than [PATH_MAX = 4096] bytes, so the [PATH_MAX - 1 = 4095]
    bytes [readSymbolicLink] asks [readlink] for always hold it whole. *)
Theorem symbolic_link_roundtrip (allowed : bool) (target path : string) (ns ns' : Names) :
  writeSymbolicLink allowed target path ns = (ns', true) ->
  exists_entry ns (DefaultContextEnv.c_str path) = false /\
  DefaultContextEnv.c_str target <> "" /\
  String.length (DefaultContextEnv.c_str target) < DefaultContext.PATH_MAX /\
  readSymbolicLink ns' path = Some (DefaultContextEnv.c_str target).
Proof.
  unfold writeSymbolicLink, symlink.
  destruct (Nat.leb_spec DefaultContext.PATH_MAX
              (String.length (DefaultContextEnv.c_str target))) as [Hl|Hl];
    [intros H; discriminate (f_equal snd H)|].
  destruct (Nat.leb DefaultContext.PATH_MAX
              (String.length (DefaultContextEnv.c_str path)));
    [intros H; discriminate (f_equal snd H)|].
  destruct (exists_entry ns (DefaultContextEnv.c_str path)) eqn:He;
    [intros H; discriminate (f_equal snd H)|].
  destruct (String.eqb_spec (DefaultContextEnv.c_str target) "") as [Ht|Ht];
    [intros H; discriminate (f_equal snd H)|].
  destruct allowed; [|intros H; discriminate (f_equal snd H)].
  intros H. injection H as <-.
  split; [reflexivity|]. split; [exact Ht|]. split; [exact Hl|].
  unfold readSymbolicLink, readlink. simpl. rewrite String.eqb_refl.
  rewrite c_str_substring. rewrite substring_all; [reflexivity|].
  unfold DefaultContext.PATH_MAX in *. lia.
Qed.

Lemma symbolic_link_roundtrip_witness :
  readSymbolicLink (fst (writeSymbolicLink true "../lib/libfoo.so" "libfoo.so" [])) "libfoo.so"
    = Some "../lib/libfoo.so".
Proof.
  exact (proj2 (proj2 (proj2 (symbolic_link_roundtrip true "../lib/libfoo.so" "libfoo.so" []
            (fst (writeSymbolicLink true "../lib/libfoo.so" "libfoo.so" [])) eq_refl)))).
Defined.

End FilesystemOpsFacts.

Module CreateDirectoryMoreFacts.

Import DefaultFilesystem CreateDirectoryFacts.

Lemma mkdirs_all_exist (mkdir_allowed : FS -> string -> bool)
    (rcomps : list string) (first : bool) (cur : string) (fs : FS) :
  (forall p, In p (built first cur rcomps) -> exists_ fs p = true) ->
  mkdirs mkdir_allowed first cur rcomps fs = (fs, built first cur rcomps, true).
Proof.
  revert first cur. induction rcomps as [|c rest IH]; intros first cur H; [reflexivity|].
  cbn [mkdirs built]. cbn [built] in H.
  set (cur' := if first then cur ++ c else cur ++ "/" ++ c) in *.
  unfold mkdir. rewrite (H cur' (or_introl eq_refl)). cbv beta iota.
  rewrite IH by (intros p Hp; apply H; right; exact Hp). reflexivity.
Qed.



(** [createDirectory] is idempotent: after a call that returned [true],
    a second call on the same path returns [true], makes the same
    [mkdir] attempts, all of them ending in [EEXIST], and changes
    nothing. *)
Theorem createDirectory_idempotent
    (GetDirectoryName GetBaseName : string -> string) (mkdir_allowed : FS -> string -> bool)
    (path : string) (fs fs' : FS) (tried : list string) :
  createDirectory GetDirectoryName GetBaseName mkdir_allowed path fs = Some (fs', tried, true) ->
  createDirectory GetDirectoryName GetBaseName mkdir_allowed path fs' = Some (fs', tried, true).
Proof.
  unfold createDirectory.
  destruct (decompose GetDirectoryName GetBaseName path) as [[cs cur]|]; [|discriminate].
  intros H. injection H as Hm.
  destruct (mkdirs_spec mkdir_allowed _ _ _ _ _ _ _ Hm) as [_ [Hall [Hex _]]].
  rewrite mkdirs_all_exist.
  - rewrite <- (Hall eq_refl). reflexivity.
  - rewrite <- (Hall eq_refl). exact (Hex eq_refl).
Qed.

Lemma createDirectory_idempotent_witness :
  createDirectory example_dirname example_basename (fun _ _ => true) "/tmp/a/b"
    [("/", Dir); ("/tmp", Dir); ("/tmp/a", Dir); ("/tmp/a/b", Dir)]
  = Some ([("/", Dir); ("/tmp", Dir); ("/tmp/a", Dir); ("/tmp/a/b", Dir)],
          ["/tmp"; "/tmp/a"; "/tmp/a/b"], true).
Proof.
  apply (createDirectory_idempotent example_dirname example_basename (fun _ _ => true)
           "/tmp/a/b" example_fs). reflexivity.
Defined.

End CreateDirectoryMoreFacts.
